(** * Service list pipeline and persisted store of kiali-ui

    A shallow embedding of
      - src/pages/ServiceList/ServiceListComponent.tsx
        (sortFields, sortServices, cleanIstioFilters, isFiltered, the
        pagination loop of render, updateSortField), and
      - src/store/ConfigStore.ts (persistConfig, initialStore),
    together with the properties the specification states about them.

    JavaScript values are modelled as follows.
      - number: a rational [Q]; the comparators only test numbers for
        equality and for their sign. NaN is not modelled.
      - objects and arrays that are shared and mutated (service items, the
        arrays handed to [Array.prototype.sort]): cells of an explicit heap,
        addressed by locations, so that aliasing is visible.
      - a promise: the way it eventually settles; the order in which several
        promises settle is an explicit schedule chosen by the environment.
      - an exception: an explicit outcome of the function that raises it. *)

From Stdlib Require Import QArith Lqa.
From stdpp Require Import base option list sorting gmap strings.

#[local] Set Warnings "-clear-no-such-hyp".

(** ** Numbers *)

Abbreviation number := Q.

(** The sign of a comparator's result: [Lt] for a negative number, [Eq] for
    zero, [Gt] for a positive one. [Array.prototype.sort] looks at nothing
    else. *)
Definition sign (q : number) : comparison := (q ?= 0)%Q.

(** ** What the component imports from outside these sources *)

(** types/Health.ts is not among the sources: the request data of a service
    health and the function computing the error ratio from it are taken as
    parameters. [String.prototype.localeCompare] is the platform's collation,
    also a parameter. *)
Record ThresholdStatus := { value : number }.

Class Imports := {
  localeCompare : string → string → number;
  RequestHealth : Type;
  getRequestErrorsRatio : RequestHealth → ThresholdStatus
}.

(** ** Consistent comparators

    ECMAScript calls a comparator consistent when the sign of its result is
    antisymmetric and each of "before", "equivalent" and "after" is
    transitive. *)
Section Consistent.
Context {A : Type}.

Record Consistent (c : A → A → comparison) : Prop := {
  consistent_sym : ∀ x y, c y x = CompOpp (c x y);
  consistent_trans : ∀ o x y z, c x y = o → c y z = o → c x z = o
}.

(** Lexicographic combination: the second comparator decides ties of the
    first. *)
Definition lex (c1 c2 : A → A → comparison) (x y : A) : comparison :=
  match c1 x y with Eq => c2 x y | o => o end.
End Consistent.

(** ** Promises, exceptions and the heap *)

(** What a promise is rejected with, or a function throws: the transport
    error of a failed request, or the TypeError JavaScript raises when a
    property of [undefined] is read. *)
Inductive reason :=
  | AxiosError (message : string)
  | TypeError.

(** A promise, at quiescence. As the [healthPromise] of an item it says how
    that request eventually settles ([Pending]: never). *)
Inductive promise (A : Type) :=
  | Pending
  | Fulfilled (v : A)
  | Rejected (r : reason).
Arguments Pending {A}.
Arguments Fulfilled {A} v.
Arguments Rejected {A} r.

(** The outcome of a synchronous call. *)
Inductive completion (A : Type) :=
  | Return (v : A)
  | Throw (r : reason).
Arguments Return {A} v.
Arguments Throw {A} r.

Definition loc := nat.

Module URLParameter.
Record t := { name : string; value : string }.
End URLParameter.

Module ServiceOverview.
Record t := { name : string; istioSidecar : bool }.
End ServiceOverview.

Record Pagination := {
  page : Z;
  perPage : Z;
  perPageOptions : list Z
}.

(** ** Array.prototype.sort

    ECMAScript leaves the algorithm to the engine and requires, for a
    consistent comparator, a sorted permutation (a stable one since
    ES2019). The model is the stable insertion sort; an exception of the
    comparator ends the sort ([None]). [comparefn x y] is called with [x]
    the element that stood first. *)
Section ArraySort.
Context {A : Type} (comparefn : A → A → option number).

Fixpoint insertSorted (x : A) (l : list A) : option (list A) :=
  match l with
  | [] => Some [x]
  | y :: l' =>
      c ← comparefn x y;
      if Qle_bool c 0 then Some (x :: y :: l') else cons y <$> insertSorted x l'
  end.

Fixpoint arraySort (l : list A) : option (list A) :=
  match l with
  | [] => Some []
  | x :: l' => s ← arraySort l'; insertSorted x s
  end.

(** [x] may stand before [y]: the comparator returns a number that is not
    positive. *)
Definition before (x y : A) : Prop :=
  ∃ c, comparefn x y = Some c ∧ (c <= 0)%Q.
End ArraySort.

(** ** The service list (ServiceListComponent.tsx) *)
Section ServiceList.
Context `{Imports}.

Record ServiceHealth := { requests : RequestHealth }.

(** A service item as an object of the heap. [health] is the property that
    sortServices adds to it; it is absent from a fresh item. *)
Record ServiceItem := {
  name : string;
  namespace : string;
  istioSidecar : bool;
  healthPromise : promise ServiceHealth;
  health : option ServiceHealth
}.

(** [compare] returns [None] when it throws: the comparator of 'Error Rate'
    reads [a.health.requests], a TypeError on an item without health. *)
Record SortField := {
  title : string;
  isNumeric : bool;
  param : string;
  compare : ServiceItem → ServiceItem → option number
}.

Definition sortFields : list SortField := [
  {| title := "Namespace"; isNumeric := false; param := "ns";
     compare := λ a b,
       let sortValue := localeCompare (namespace a) (namespace b) in
       let sortValue :=
         if Qeq_bool sortValue 0 then localeCompare (name a) (name b)
         else sortValue in
       Some sortValue |};
  {| title := "Service Name"; isNumeric := false; param := "sn";
     compare := λ a b, Some (localeCompare (name a) (name b)) |};
  {| title := "Istio Sidecar"; isNumeric := false; param := "is";
     compare := λ a b,
       if istioSidecar a && negb (istioSidecar b) then Some (-1)%Q
       else if negb (istioSidecar a) && istioSidecar b then Some 1%Q
       else Some (localeCompare (name a) (name b)) |};
  {| title := "Error Rate"; isNumeric := true; param := "er";
     compare := λ a b,
       healthA ← health a;
       let ratioA := value (getRequestErrorsRatio (requests healthA)) in
       healthB ← health b;
       let ratioB := value (getRequestErrorsRatio (requests healthB)) in
       Some (if Qeq_bool ratioA ratioB then localeCompare (name a) (name b)
             else (ratioA - ratioB)%Q) |}
].

(** The heap: arrays of references to items, and the items. *)
Record heap := {
  arrays : gmap loc (list loc);
  items : gmap loc ServiceItem
}.

(** [isAscending ? sortField.compare : (a, b) => sortField.compare(b, a)] *)
Definition comparator (sortField : SortField) (isAscending : bool)
    : ServiceItem → ServiceItem → option number :=
  if isAscending then compare sortField
  else λ a b, compare sortField b a.

(** The comparator as [sort] applies it to two elements of an array of
    references. *)
Definition compareAt (h : heap) (cmp : ServiceItem → ServiceItem → option number)
    (a b : loc) : option number :=
  x ← items h !! a; y ← items h !! b; cmp x y.

(** [arr.sort(cmp)]: the array is reordered in place. *)
Definition sortInPlace (h : heap) (arr : loc)
    (cmp : ServiceItem → ServiceItem → option number) : option heap :=
  l ← arrays h !! arr;
  s ← arraySort (compareAt h cmp) l;
  Some {| arrays := <[arr := s]> (arrays h); items := items h |}.

(** [withHealth.health = health], on the item itself. *)
Definition setHealth (hl : ServiceHealth) (it : ServiceItem) : ServiceItem :=
  {| name := name it; namespace := namespace it;
     istioSidecar := istioSidecar it; healthPromise := healthPromise it;
     health := Some hl |}.

Definition attachHealth (h : heap) (item : loc) (hl : ServiceHealth) : heap :=
  {| arrays := arrays h; items := alter (setHealth hl) item (items h) |}.

(** The state of [Promise.all]: the values gathered so far, by index, and
    the first rejection seen. *)
Record joinState := {
  values : list (option loc);
  rejection : option reason
}.

(** The promise of index [i] settles. A fulfilled one runs the [then]
    callback of line 91 on its item; a rejected one rejects the join unless
    it is rejected already. *)
Definition settleOne (allHealthPromises : list (loc * promise ServiceHealth))
    (st : heap * joinState) (i : nat) : heap * joinState :=
  match allHealthPromises !! i with
  | Some (item, Fulfilled hl) =>
      (attachHealth st.1 item hl,
       {| values := <[i := Some item]> (values st.2);
          rejection := rejection st.2 |})
  | Some (item, Rejected r) =>
      (st.1,
       {| values := values st.2;
          rejection := match rejection st.2 with
                       | Some r0 => Some r0
                       | None => Some r
                       end |})
  | _ => st
  end.

Definition settleAll (allHealthPromises : list (loc * promise ServiceHealth))
    (schedule : list nat) (st : heap * joinState) : heap * joinState :=
  foldl (settleOne allHealthPromises) st schedule.

Definition joined (j : joinState) : promise (list loc) :=
  match rejection j with
  | Some r => Rejected r
  | None =>
      match mapM id (values j) with
      | Some arr => Fulfilled arr
      | None => Pending
      end
  end.

(** sortServices (lines 82-104). [schedule] lists the indices of the health
    promises that settle, in the order in which they do; the result is the
    heap and the promise returned, as they are once these have settled and
    the callbacks have run. *)
Definition sortServices (h : heap) (schedule : list nat) (services : loc)
    (sortField : SortField) (isAscending : bool)
    : heap * completion (promise loc) :=
  match arrays h !! services with
  | None => (h, Throw TypeError)
  | Some elements =>
      if decide (title sortField = "Error Rate") then
        match mapM (λ item, it ← items h !! item;
                            Some (item, healthPromise it)) elements with
        | None => (h, Throw TypeError)
        | Some allHealthPromises =>
            let start := {| values := replicate (length elements) None;
                            rejection := None |} in
            let '(h1, j) := settleAll allHealthPromises schedule (h, start) in
            match joined j with
            | Pending => (h1, Return Pending)
            | Rejected r => (h1, Return (Rejected r))
            | Fulfilled arr =>
                let a := fresh (dom (arrays h1)) in
                let h2 := {| arrays := <[a := arr]> (arrays h1);
                             items := items h1 |} in
                match sortInPlace h2 a (comparator sortField isAscending) with
                | Some h3 => (h3, Return (Fulfilled a))
                | None => (h2, Return (Rejected TypeError))
                end
            end
        end
      else
        match sortInPlace h services (comparator sortField isAscending) with
        | Some h1 => (h1, Return (Fulfilled services))
        | None => (h, Throw TypeError)
        end
  end.

(** The component's state and updateSortField (lines 241-250). The fourth
    component of the result is the error nothing handles, if any. *)
Record ServiceListComponentState := {
  services : loc;
  pagination : Pagination;
  currentSortField : SortField;
  isSortAscending : bool;
  rateInterval : Z
}.

Definition updateSortField (st : ServiceListComponentState) (h : heap)
    (schedule : list nat) (sortField : SortField)
    : heap * ServiceListComponentState * list URLParameter.t * option reason :=
  match sortServices h schedule (services st) sortField (isSortAscending st) with
  | (h', Return (Fulfilled sorted)) =>
      (h',
       {| services := sorted; pagination := pagination st;
          currentSortField := sortField;
          isSortAscending := isSortAscending st;
          rateInterval := rateInterval st |},
       [ {| URLParameter.name := "sort"; URLParameter.value := param sortField |} ],
       None)
  | (h', Return (Rejected r)) => (h', st, [], Some r)
  | (h', Return Pending) => (h', st, [], None)
  | (h', Throw r) => (h', st, [], Some r)
  end.

End ServiceList.

(** ** Filters (lines 263-278 and 336-373) *)

(** [a.indexOf(x)]: the index of the first element strictly equal to [x],
    or -1. *)
Fixpoint indexOfFrom (i : Z) (a : list string) (x : string) : Z :=
  match a with
  | [] => (-1)%Z
  | y :: a' => if bool_decide (y = x) then i else indexOfFrom (i + 1) a' x
  end.

Definition indexOf (a : list string) (x : string) : Z := indexOfFrom 0 a x.

(** [a.filter((x, i) => p(x, i))], the callback receiving the index. *)
Fixpoint filterFrom {A} (i : Z) (p : A → Z → bool) (a : list A) : list A :=
  match a with
  | [] => []
  | x :: a' =>
      if p x i then x :: filterFrom (i + 1) p a' else filterFrom (i + 1) p a'
  end.

(** Modelled from the spec: utils/Common.ts, which defines
    removeDuplicatesArray, is not among the sources. The spec says that
    duplicate filter values within a category are de-duplicated; the first
    occurrence of a value is the one kept. *)
Fixpoint removeDuplicatesArray (a : list string) : list string :=
  match a with
  | [] => []
  | x :: a' => x :: filter (λ y, y ≠ x) (removeDuplicatesArray a')
  end.

Definition cleanIstioFilters (istioFilters : list string) : list string :=
  if bool_decide (length istioFilters = 0) then []
  else
    let cleanArray :=
      filterFrom 0
        (λ iFilter i, bool_decide (indexOf istioFilters iFilter = i))
        istioFilters in
    if bool_decide (length cleanArray = 2) then [] else cleanArray.

(** [s.includes(sub)]: [sub] occurs in [s] at some position. *)
Fixpoint includes (s sub : string) : bool :=
  if String.prefix sub s then true
  else match s with
       | EmptyString => false
       | String _ s' => includes s' sub
       end.

(** The loop of lines 354-359, leaving at the first filter that occurs in
    the name. *)
Fixpoint someIncluded (serviceName : string) (servicenameFilters : list string)
    : bool :=
  match servicenameFilters with
  | [] => false
  | f :: fs => if includes serviceName f then true else someIncluded serviceName fs
  end.

Definition isFiltered (service : ServiceOverview.t)
    (servicenameFilters istioFilters : list string) : bool :=
  let serviceNameFiltered :=
    if bool_decide (0 < length servicenameFilters)
    then someIncluded (ServiceOverview.name service) servicenameFilters
    else true in
  let istioFiltered :=
    if bool_decide (length istioFilters = 1) then
      match istioFilters !! 0 with
      | Some f =>
          let istioFiltered :=
            if bool_decide (f = "Present")
            then ServiceOverview.istioSidecar service else true in
          if bool_decide (f = "Not Present")
          then negb (ServiceOverview.istioSidecar service) else istioFiltered
      | None => true
      end
    else true in
  serviceNameFiltered && istioFiltered.

(** The filtering step of fetchServices (lines 306-309). *)
Definition filterServices (serviceList : list ServiceOverview.t)
    (servicenameFilters istioFilters : list string) : list ServiceOverview.t :=
  if bool_decide (0 < length servicenameFilters)
     || bool_decide (0 < length istioFilters)
  then filter (λ service, isFiltered service servicenameFilters istioFilters)
         serviceList
  else serviceList.

(** The filter contract in the words of the specification: within a category
    the filters combine with OR, across categories with AND, and a category
    without filters does not constrain. Names match by containment, the
    sidecar flag by its exact value. *)
Definition contains (s sub : string) : Prop :=
  ∃ pre post, s = pre +:+ sub +:+ post.

Definition sidecarValue (service : ServiceOverview.t) : string :=
  if ServiceOverview.istioSidecar service then "Present" else "Not Present".

Definition passes (service : ServiceOverview.t)
    (servicenameFilters istioFilters : list string) : Prop :=
  (servicenameFilters = [] ∨
   ∃ f, f ∈ servicenameFilters ∧ contains (ServiceOverview.name service) f) ∧
  (istioFilters = [] ∨
   ∃ f, f ∈ istioFilters ∧ f = sidecarValue service).

(** The values of the 'Istio Sidecar' filter (istioFilter, lines 115-122). *)
Definition istioFilterValues : list string := ["Present"; "Not Present"].

(** ** Pagination (render, lines 375-406) *)

(** [a[i]] for a number [i]: [undefined] outside the array. *)
Definition at_index {A} (a : list A) (i : Z) : option A :=
  if bool_decide (0 ≤ i)%Z then a !! Z.to_nat i else None.

(** The loop of lines 381-406. Each turn reads [services[i]] and then one of
    its properties, a TypeError when the element is [undefined]; the element
    rendered for an item is represented by the item. [None]: out of fuel. *)
Fixpoint renderLoop {A} (fuel : nat) (services : list A) (i pageEnd : Z)
    (serviceList : list A) : option (completion (list A)) :=
  if bool_decide (i < pageEnd)%Z then
    match fuel with
    | O => None
    | S fuel' =>
        match at_index services i with
        | None => Some (Throw TypeError)
        | Some serviceItem =>
            renderLoop fuel' services (i + 1) pageEnd
              (serviceList ++ [serviceItem])
        end
    end
  else Some (Return serviceList).

Definition pageStartOf (p : Pagination) : Z := ((page p - 1) * perPage p)%Z.

Definition pageEndOf {A} (services : list A) (p : Pagination) : Z :=
  let pageEnd := (pageStartOf p + perPage p)%Z in
  if bool_decide (pageEnd < Z.of_nat (length services))%Z then pageEnd
  else Z.of_nat (length services).

Definition renderList {A} (fuel : nat) (services : list A) (p : Pagination)
    : option (completion (list A)) :=
  renderLoop fuel services (pageStartOf p) (pageEndOf services p) [].

(** [items[start:end]] of the specification, for indices that are not
    negative; it is empty when [stop] is not above [start]. *)
Definition slice {A} (items : list A) (start stop : Z) : list A :=
  take (Z.to_nat stop - Z.to_nat start) (drop (Z.to_nat start) items).

(** ** The persisted store (store/ConfigStore.ts) *)

Record PersistConfig := {
  key : string;
  whitelist : list string
}.

(** [storage] is the browser's local storage, an argument of the functions
    below. *)
Definition persistConfig : PersistConfig :=
  {| key := "root";
     whitelist := ["authentication"; "statusState"; "userSettings"] |}.

Section ConfigStore.
(** The reducers' modules, which define the initial value of each slice, are
    not among the sources: the seven values are parameters. The state is the
    object mapping a slice's name to its value. *)
Context {Slice : Type}.
Context (INITIAL_GLOBAL_STATE INITIAL_STATUS_STATE INITIAL_NAMESPACE_STATE
         INITIAL_LOGIN_STATE INITIAL_MESSAGE_CENTER_STATE INITIAL_GRAPH_STATE
         INITIAL_USER_SETTINGS_STATE : Slice).

Definition initialStore : gmap string Slice :=
  list_to_map [
    ("globalState", INITIAL_GLOBAL_STATE);
    ("statusState", INITIAL_STATUS_STATE);
    ("namespaces", INITIAL_NAMESPACE_STATE);
    ("authentication", INITIAL_LOGIN_STATE);
    ("messageCenter", INITIAL_MESSAGE_CENTER_STATE);
    ("graph", INITIAL_GRAPH_STATE);
    ("userSettings", INITIAL_USER_SETTINGS_STATE)
  ].

(** Modelled from the spec: redux-persist's persistReducer and persistStore
    are a library, not among the sources. The spec says that persist
    "serializes only the whitelisted slices (fixed, configured set) to
    durable storage". *)
Definition persist (config : PersistConfig) (state : gmap string Slice)
    : gmap string Slice :=
  filter (λ kv, kv.1 ∈ whitelist config) state.

(** Modelled from the spec: rehydrate "reads durable storage; for each
    whitelisted slice present in storage, overlay its persisted value onto
    the corresponding default slice; slices absent from storage, or storage
    itself being absent/corrupt, fall back silently to the compile-time
    default". [None] is the absent or corrupt storage. *)
Definition rehydrate (config : PersistConfig)
    (storage : option (gmap string Slice)) (defaults : gmap string Slice)
    : gmap string Slice :=
  map_imap (λ slice default,
    Some (match storage with
          | Some stored =>
              if bool_decide (slice ∈ whitelist config)
              then from_option id default (stored !! slice)
              else default
          | None => default
          end)) defaults.

(** The state of the store after a process start (lines 52-53). *)
Definition startStore (storage : option (gmap string Slice))
    : gmap string Slice :=
  rehydrate persistConfig storage initialStore.

(** The slices of initialStore that the whitelist leaves out. *)
Definition transientSlices : list string :=
  ["globalState"; "namespaces"; "messageCenter"; "graph"].
End ConfigStore.

(** ** An instance of the imports

    The collation that orders strings by their code units, and request data
    made of two counters, with the ratio in percent (-1 without requests).
    The concrete examples below run on it. *)
Definition ordinalCompare (a b : string) : number :=
  match String.compare a b with
  | Lt => (-1)%Q
  | Eq => 0%Q
  | Gt => 1%Q
  end.

Record RequestCounts := {
  requestCount : Z;
  requestErrorCount : Z
}.

Definition errorPercent (r : RequestCounts) : ThresholdStatus :=
  if bool_decide (requestCount r = 0%Z) then {| value := (-1)%Q |}
  else {| value := (100 * inject_Z (requestErrorCount r)
                    / inject_Z (requestCount r))%Q |}.

Definition ordinalImports : Imports :=
  {| localeCompare := ordinalCompare;
     RequestHealth := RequestCounts;
     getRequestErrorsRatio := errorPercent |}.

(** ** Laws of a collation

    The comparison of strings is consistent; it is separating when only
    equal strings compare as equal. *)
Definition byString `{Imports} (x y : string) : comparison :=
  sign (localeCompare x y).

Class CollationLaws `{Imports} : Prop :=
  collation_consistent : Consistent byString.

Definition Separating `{Imports} : Prop :=
  ∀ x y, byString x y = Eq → x = y.

(** ** Orders and predicates the properties are stated with *)

(** The orders the four comparators are built from. An item without health
    has no error ratio; [byErrorRatio] places it first, which the comparator
    itself never decides, since it throws on such an item. *)
Definition byName `{Imports} (a b : ServiceItem) : comparison :=
  byString (name a) (name b).

Definition byNamespace `{Imports} (a b : ServiceItem) : comparison :=
  byString (namespace a) (namespace b).

Definition sidecarFirst (x y : bool) : comparison :=
  match x, y with
  | true, false => Lt
  | false, true => Gt
  | _, _ => Eq
  end.

Definition bySidecar `{Imports} (a b : ServiceItem) : comparison :=
  sidecarFirst (istioSidecar a) (istioSidecar b).

Definition errorRatio `{Imports} (a : ServiceItem) : option number :=
  h ← health a; Some (value (getRequestErrorsRatio (requests h))).

Definition optionCompare (x y : option number) : comparison :=
  match x, y with
  | Some p, Some q => (p ?= q)%Q
  | None, Some _ => Lt
  | Some _, None => Gt
  | None, None => Eq
  end.

Definition byErrorRatio `{Imports} (a b : ServiceItem) : comparison :=
  optionCompare (errorRatio a) (errorRatio b).

(** The primary key of the sort field of index [i] in sortFields. *)
Definition primaryOrder `{Imports} (i : nat)
    : ServiceItem → ServiceItem → comparison :=
  match i with
  | 0 => byNamespace
  | 1 => byName
  | 2 => bySidecar
  | _ => byErrorRatio
  end.

(** The comparator of [f] can be applied to [a]. *)
Definition ready `{Imports} (f : SortField) (a : ServiceItem) : Prop :=
  is_Some (compare f a a).

(** The identity of an item, unique within one fetch. *)
Definition identity `{Imports} (a : ServiceItem) : string * string :=
  (namespace a, name a).

(** A comparator is strict when it never reports a tie between two items of
    different identity. *)
Definition strict `{Imports} (f : SortField) : Prop :=
  ∀ a b n, identity a ≠ identity b → compare f a b = Some n → sign n ≠ Eq.

(** The [then] callback applied to an item: its health is the value its
    promise is fulfilled with. *)
Definition resolved `{Imports} (it : ServiceItem) : ServiceItem :=
  match healthPromise it with
  | Fulfilled hl => setHealth hl it
  | _ => it
  end.

(** Two items agree on every property of a ServiceItem (all but the added
    [health]). *)
Definition sameFields `{Imports} (a b : ServiceItem) : Prop :=
  name a = name b ∧ namespace a = namespace b ∧
  istioSidecar a = istioSidecar b ∧ healthPromise a = healthPromise b.

Definition fulfilledAt `{Imports} (ps : list (loc * promise ServiceHealth))
    (i : nat) : option loc :=
  match ps !! i with
  | Some (r, Fulfilled _) => Some r
  | _ => None
  end.

Definition rejectedAt `{Imports} (ps : list (loc * promise ServiceHealth))
    (i : nat) : option reason :=
  match ps !! i with
  | Some (_, Rejected e) => Some e
  | _ => None
  end.

(** The promises gathered at line 90 are those of the items of the heap. *)
Definition gathered `{Imports} (h : heap)
    (ps : list (loc * promise ServiceHealth)) : Prop :=
  ∀ i r p, ps !! i = Some (r, p) →
    ∃ it, items h !! r = Some it ∧ healthPromise it = p.

(** An item to stand for a reference that points to none. *)
Definition blankItem `{Imports} : ServiceItem :=
  {| name := ""; namespace := ""; istioSidecar := false;
     healthPromise := Pending; health := None |}.

(** The element at [r1] may stand before the one at [r2]: the comparator of
    the field, or its reversal when the order is descending, returns a number
    that is not positive on the two items. *)
Definition inOrder `{Imports} (h : heap) (f : SortField) (isAscending : bool)
    (r1 r2 : loc) : Prop :=
  ∃ a b n,
    items h !! r1 = Some a ∧ items h !! r2 = Some b ∧
    (if isAscending then compare f a b else compare f b a) = Some n ∧
    (n <= 0)%Q.

(** ** More of the component: URL parameters, paging, selected filters *)

(** [a.findIndex(p)]: the index of the first element that satisfies [p],
    or -1. *)
Fixpoint findIndexFrom {A} (i : Z) (p : A → bool) (a : list A) : Z :=
  match a with
  | [] => (-1)%Z
  | x :: a' => if p x then i else findIndexFrom (i + 1) p a'
  end.

Definition findIndex {A} (p : A → bool) (a : list A) : Z :=
  findIndexFrom 0 p a.

(** updateParams (lines 187-199). [newParams] is the array [params] itself:
    the list returned is the content of that array after the call. *)
Definition updateParams (params : list URLParameter.t) (id value : string)
    : list URLParameter.t :=
  let newParams := params in
  let index :=
    findIndex
      (λ param, bool_decide (URLParameter.name param = id)
                && bool_decide (0 < String.length (URLParameter.value param)))
      newParams in
  if bool_decide (0 ≤ index)%Z then
    alter (λ param, {| URLParameter.name := URLParameter.name param;
                       URLParameter.value := value |})
          (Z.to_nat index) newParams
  else
    newParams ++ [ {| URLParameter.name := id; URLParameter.value := value |} ].

(** The key and target of the link rendered for an item (line 383). *)
Definition linkTo `{Imports} (serviceItem : ServiceItem) : string :=
  "/namespaces/" +:+ namespace serviceItem +:+ "/services/"
  +:+ name serviceItem.

Section Paging.
(** ListPage.perPageOptions is not among the sources, nor is the conversion
    of a number to a string a part of them: both are parameters. *)
Context `{Imports} (ListPage_perPageOptions : list Z) (String : Z → string).

(** pageSet (lines 211-224) and perPageSelect (lines 226-239): the new
    state, and the parameters handed to onParamChange. *)
Definition pageSet (prevState : ServiceListComponentState) (page : Z)
    : ServiceListComponentState * list URLParameter.t :=
  ({| services := services prevState;
      pagination := {| page := page;
                       perPage := perPage (pagination prevState);
                       perPageOptions := ListPage_perPageOptions |};
      currentSortField := currentSortField prevState;
      isSortAscending := isSortAscending prevState;
      rateInterval := rateInterval prevState |},
   [ {| URLParameter.name := "page"; URLParameter.value := String page |} ]).

Definition perPageSelect (prevState : ServiceListComponentState) (perPage : Z)
    : ServiceListComponentState * list URLParameter.t :=
  ({| services := services prevState;
      pagination := {| page := 1;
                       perPage := perPage;
                       perPageOptions := ListPage_perPageOptions |};
      currentSortField := currentSortField prevState;
      isSortAscending := isSortAscending prevState;
      rateInterval := rateInterval prevState |},
   [ {| URLParameter.name := "page"; URLParameter.value := "1" |};
     {| URLParameter.name := "perPage";
        URLParameter.value := String perPage |} ]).
End Paging.

Module ActiveFilter.
Record t := { category : string; value : string }.
End ActiveFilter.

(** [activeFilters.filter(f => f.category === category).map(f => f.value)],
    as at lines 265-273. *)
Definition categoryValues (category : string)
    (activeFilters : list ActiveFilter.t) : list string :=
  ActiveFilter.value
    <$> filter (λ activeFilter, ActiveFilter.category activeFilter = category)
          activeFilters.

(** The three lists updateServices computes from the selected filters
    (lines 264-278). *)
Record SelectedFilters := {
  namespacesSelected : list string;
  servicenameFilters : list string;
  istioFilters : list string
}.

Definition selectFilters (activeFilters : list ActiveFilter.t)
    : SelectedFilters :=
  {| namespacesSelected :=
       removeDuplicatesArray (categoryValues "Namespace" activeFilters);
     servicenameFilters :=
       removeDuplicatesArray (categoryValues "Service Name" activeFilters);
     istioFilters :=
       cleanIstioFilters
         (removeDuplicatesArray (categoryValues "Istio Sidecar" activeFilters))
  |}.

Module ServiceListResponse.
(** The data of a response of API.getServices, as fetchServices reads it:
    [data.namespace.name] and [data.services]. *)
Record t := { namespace : string; services : list ServiceOverview.t }.
End ServiceListResponse.

(** The loops of fetchServices (lines 303-319). overviewToItem is not among
    the sources: what is listed is the overview and the namespace of each of
    its calls, in the order of the calls, which is the order of the items of
    [updatedServices]. *)
Definition updatedServices (servicesResponse : list ServiceListResponse.t)
    (servicenameFilters istioFilters : list string)
    : list (string * ServiceOverview.t) :=
  foldl
    (λ updatedServices serviceResponse,
       let namespace := ServiceListResponse.namespace serviceResponse in
       let serviceList :=
         filterServices (ServiceListResponse.services serviceResponse)
           servicenameFilters istioFilters in
       foldl (λ updatedServices overview,
                updatedServices ++ [(namespace, overview)])
             updatedServices serviceList)
    [] servicesResponse.

(** ** Example data, on the instance of the imports *)

(** Two services with the same name in two namespaces, and a third one; the
    requests of the first two answered, with 1 error in 4 and no error. *)
Definition healthOf (count errors : Z) : @ServiceHealth ordinalImports :=
  @Build_ServiceHealth ordinalImports
    {| requestCount := count; requestErrorCount := errors |}.

Definition reviewsBookinfo : @ServiceItem ordinalImports :=
  {| name := "reviews"; namespace := "bookinfo"; istioSidecar := true;
     healthPromise := Fulfilled (healthOf 4 1);
     health := None |}.

Definition reviewsStaging : @ServiceItem ordinalImports :=
  {| name := "reviews"; namespace := "staging"; istioSidecar := true;
     healthPromise := Fulfilled (healthOf 8 0);
     health := None |}.

Definition detailsBookinfo : @ServiceItem ordinalImports :=
  {| name := "details"; namespace := "bookinfo"; istioSidecar := false;
     healthPromise := Rejected (AxiosError "timeout");
     health := None |}.

Definition namespaceField : @SortField ordinalImports :=
  default {| title := ""; isNumeric := false; param := "";
             compare := λ _ _, None |} (sortFields !! 0).

Definition serviceNameField : @SortField ordinalImports :=
  default namespaceField (sortFields !! 1).

Definition errorRateField : @SortField ordinalImports :=
  default namespaceField (sortFields !! 3).

Definition istioSidecarField : @SortField ordinalImports :=
  default namespaceField (sortFields !! 2).

(** A heap with one array, at reference 0, of three items. *)
Definition bookinfoHeap : @heap ordinalImports :=
  {| arrays := {[ 0 := [0; 1; 2] ]};
     items := {[ 0 := reviewsStaging; 1 := reviewsBookinfo;
                 2 := detailsBookinfo ]} |}.

(** A heap with the two reviews services, whose requests are answered. *)
Definition reviewsHeap : @heap ordinalImports :=
  {| arrays := {[ 0 := [0; 1] ]};
     items := {[ 0 := reviewsStaging; 1 := reviewsBookinfo ]} |}.

Definition bookinfoState : @ServiceListComponentState ordinalImports :=
  {| services := 0;
     pagination :=
       {| page := 1; perPage := 10; perPageOptions := [5; 10; 15]%Z |};
     currentSortField := namespaceField;
     isSortAscending := true;
     rateInterval := 60 |}.

(** Two selections of the same filters, and a response. *)
Definition selectedTwice : list ActiveFilter.t :=
  [ {| ActiveFilter.category := "Service Name"; ActiveFilter.value := "view" |};
    {| ActiveFilter.category := "Istio Sidecar";
       ActiveFilter.value := "Present" |};
    {| ActiveFilter.category := "Service Name";
       ActiveFilter.value := "view" |} ].

Definition selectedOnce : list ActiveFilter.t :=
  [ {| ActiveFilter.category := "Istio Sidecar";
       ActiveFilter.value := "Present" |};
    {| ActiveFilter.category := "Service Name";
       ActiveFilter.value := "view" |} ].

Definition bookinfoResponse : list ServiceListResponse.t :=
  [ {| ServiceListResponse.namespace := "bookinfo";
       ServiceListResponse.services :=
         [ {| ServiceOverview.name := "reviews";
              ServiceOverview.istioSidecar := true |};
           {| ServiceOverview.name := "details";
              ServiceOverview.istioSidecar := true |} ] |} ].

(** * Properties *)

(** ** Consistent comparators *)
Section ConsistentProperties.
Context {A : Type}.
Implicit Types (c : A → A → comparison) (x y z : A).

Lemma consistent_eq_l c x y z : Consistent c → c x y = Eq → c x z = c y z.
Proof.
  intros Hc Hxy. pose proof Hc as [Hsym Htrans].
  assert (Hyx : c y x = Eq) by (by rewrite Hsym, Hxy).
  destruct (c x z) eqn:Hxz, (c y z) eqn:Hyz; try done.
  all: try (by rewrite (Htrans Eq y x z) in Hyz).
  all: try (by rewrite (Htrans Eq x y z) in Hxz).
  - (* x < z, z < y, so x < y *)
    assert (c z y = Lt) by (by rewrite Hsym, Hyz).
    by rewrite (Htrans Lt x z y) in Hxy.
  - (* y < z, z < x, so y < x *)
    assert (c z x = Lt) by (by rewrite Hsym, Hxz).
    by rewrite (Htrans Lt y z x) in Hyx.
Qed.

Lemma consistent_eq_r c x y z : Consistent c → c y z = Eq → c x y = c x z.
Proof.
  intros Hc Hyz. pose proof Hc as [Hsym _].
  rewrite (Hsym y x), (Hsym z x). f_equal.
  by apply consistent_eq_l.
Qed.

(** What two comparisons in a row say of the third: a tie hands over the
    other result, two equal results are kept, and nothing follows from a
    "before" and an "after". *)
Lemma consistent_chain c x y z :
  Consistent c →
  match c x y, c y z with
  | Eq, o | o, Eq => c x z = o
  | Lt, Lt => c x z = Lt
  | Gt, Gt => c x z = Gt
  | _, _ => True
  end.
Proof.
  intros Hc. pose proof Hc as [_ Htrans].
  destruct (c x y) eqn:Hxy, (c y z) eqn:Hyz; try done.
  all: try (by rewrite (consistent_eq_l c x y z), Hyz).
  all: try (by rewrite <-(consistent_eq_r c x y z), Hxy).
  all: by eapply Htrans.
Qed.

Lemma lex_consistent c1 c2 :
  Consistent c1 → Consistent c2 → Consistent (lex c1 c2).
Proof.
  intros H1 H2. pose proof H1 as [Hsym1 _].
  pose proof H2 as [Hsym2 Htrans2]. split.
  - intros x y. unfold lex. rewrite Hsym1.
    destruct (c1 x y); simpl; [apply Hsym2|done..].
  - intros o x y z. unfold lex.
    pose proof (consistent_chain c1 x y z H1) as Hxz.
    destruct (c1 x y), (c1 y z); try rewrite Hxz; try congruence.
    apply Htrans2.
Qed.

Lemma flip_consistent c : Consistent c → Consistent (flip c).
Proof.
  intros [Hsym Htrans]. split; unfold flip.
  - intros x y. apply Hsym.
  - intros o x y z Hyx Hzy. by apply (Htrans o z y x).
Qed.
End ConsistentProperties.

Lemma key_consistent {A B} (f : A → B) (c : B → B → comparison) :
  Consistent c → Consistent (λ x y, c (f x) (f y)).
Proof.
  intros [Hsym Htrans]. split.
  - intros x y. apply Hsym.
  - intros o x y z. apply Htrans.
Qed.

(** ** Signs of numbers and the instance's collation *)

Lemma sign_minus (a b : number) : sign (a - b)%Q = (a ?= b)%Q.
Proof.
  unfold sign. destruct (Qcompare_spec a b) as [E|L|G].
  - rewrite <-Qeq_alt. lra.
  - rewrite <-Qlt_alt. lra.
  - rewrite <-Qgt_alt. lra.
Qed.

Lemma sign_eq (n : number) : Qeq_bool n 0 = true ↔ sign n = Eq.
Proof. unfold sign. by rewrite Qeq_bool_iff, Qeq_alt. Qed.

Lemma Qcompare_consistent : Consistent Qcompare.
Proof.
  split.
  - intros x y. by rewrite Qcompare_antisym.
  - intros [] x y z.
    + rewrite <-!Qeq_alt. lra.
    + rewrite <-!Qlt_alt. lra.
    + rewrite <-!Qgt_alt. lra.
Qed.

Lemma N_compare_consistent : Consistent N.compare.
Proof.
  split.
  - intros x y. apply N.compare_antisym.
  - intros [] x y z.
    + rewrite !N.compare_eq_iff. congruence.
    + rewrite !N.compare_lt_iff. lia.
    + rewrite !N.compare_gt_iff. lia.
Qed.

Lemma Ascii_compare_consistent : Consistent Ascii.compare.
Proof. apply (key_consistent Ascii.N_of_ascii), N_compare_consistent. Qed.

Lemma String_compare_consistent : Consistent String.compare.
Proof.
  split.
  - intros x y. apply String.compare_antisym.
  - intros o x. induction x as [|a x IH]; intros [|b y] [|c z]; simpl;
      try congruence.
    pose proof (consistent_chain _ a b c Ascii_compare_consistent) as Hac.
    destruct (Ascii.compare a b), (Ascii.compare b c); try rewrite Hac;
      try congruence.
    apply IH.
Qed.

Lemma ordinalCompare_sign x y :
  sign (ordinalCompare x y) = String.compare x y.
Proof. unfold ordinalCompare. by destruct (String.compare x y). Qed.

Lemma ordinal_laws : @CollationLaws ordinalImports.
Proof.
  unfold CollationLaws, byString. simpl.
  destruct String_compare_consistent as [Hsym Htrans]. split.
  - intros x y. rewrite !ordinalCompare_sign. apply Hsym.
  - intros o x y z. rewrite !ordinalCompare_sign. apply Htrans.
Qed.

Lemma ordinal_separating : @Separating ordinalImports.
Proof.
  intros x y. unfold byString. simpl. rewrite ordinalCompare_sign.
  apply String.compare_eq_iff.
Qed.

(** ** Array.prototype.sort *)
Section ArraySortProperties.
Context {A : Type} (comparefn : A → A → option number).

Lemma insertSorted_Permutation x l s :
  insertSorted comparefn x l = Some s → s ≡ₚ x :: l.
Proof.
  revert s. induction l as [|y l IH]; intros s; simpl.
  - by intros [= <-].
  - destruct (comparefn x y) as [c|]; simpl; [|done].
    destruct (Qle_bool c 0); [by intros [= <-]|].
    destruct (insertSorted comparefn x l) as [s'|]; simpl; [|done].
    intros [= <-]. rewrite (IH s') by done. apply Permutation_swap.
Qed.

Lemma arraySort_Permutation l s : arraySort comparefn l = Some s → s ≡ₚ l.
Proof.
  revert s. induction l as [|x l IH]; intros s; simpl.
  - by intros [= <-].
  - destruct (arraySort comparefn l) as [s'|]; simpl; [|done].
    intros Hs%insertSorted_Permutation. by rewrite Hs, (IH s').
Qed.

(** The sort ends when the comparator returns on the elements of the
    array, consistent or not. *)
Lemma insertSorted_is_Some x l :
  (∀ y, y ∈ l → is_Some (comparefn x y)) →
  is_Some (insertSorted comparefn x l).
Proof.
  induction l as [|y l IH]; intros Hdef; simpl; [done|].
  destruct (Hdef y) as [c ->]; [by left|]. simpl.
  destruct (Qle_bool c 0); [done|].
  destruct IH as [s ->]; [|done]. intros z Hz. apply Hdef. by right.
Qed.

Lemma arraySort_is_Some l :
  (∀ x y, x ∈ l → y ∈ l → is_Some (comparefn x y)) →
  is_Some (arraySort comparefn l).
Proof.
  induction l as [|x l IH]; intros Hdef; simpl; [done|].
  destruct IH as [s Hs].
  { intros y z Hy Hz. apply Hdef; by right. }
  rewrite Hs. simpl. apply insertSorted_is_Some. intros y Hy.
  apply arraySort_Permutation in Hs. rewrite Hs in Hy.
  apply Hdef; [by left|by right].
Qed.

(** On elements where the comparator is defined and its sign is a
    consistent order, the sort ends and its result is sorted. *)
Context (c : A → A → comparison) (P : A → Prop).
Hypothesis c_consistent : Consistent c.
Hypothesis c_computed :
  ∀ x y, P x → P y → ∃ n, comparefn x y = Some n ∧ sign n = c x y.

Lemma before_iff x y : P x → P y → before comparefn x y ↔ c x y ≠ Gt.
Proof.
  intros Hx Hy. destruct (c_computed x y Hx Hy) as (n & Hn & Hsign).
  unfold before. rewrite Hn, <-Hsign. unfold sign. split.
  - intros (? & [= <-] & Hle). by apply Qle_alt.
  - intros Hle. exists n. split; [done|]. by apply Qle_alt.
Qed.

Lemma before_trans x y z :
  P x → P y → P z →
  before comparefn x y → before comparefn y z → before comparefn x z.
Proof.
  intros Hx Hy Hz. rewrite !before_iff by done.
  pose proof (consistent_chain c x y z c_consistent) as Hxz.
  destruct (c x y), (c y z); try done; by rewrite Hxz.
Qed.

Lemma before_total x y :
  P x → P y → before comparefn x y ∨ before comparefn y x.
Proof.
  intros Hx Hy. rewrite !before_iff by done.
  destruct c_consistent as [Hsym _]. rewrite (Hsym x y).
  destruct (c x y); simpl; auto.
Qed.

Lemma insertSorted_sorted x l :
  P x → Forall P l → StronglySorted (before comparefn) l →
  ∃ s, insertSorted comparefn x l = Some s ∧
       StronglySorted (before comparefn) s.
Proof.
  intros Hx. induction l as [|y l IH]; intros Hl Hsorted; simpl.
  - exists [x]. split; [done|]. repeat constructor.
  - apply Forall_cons in Hl as [Hy Hl].
    apply StronglySorted_inv in Hsorted as [Hsorted Hyl].
    destruct (c_computed x y Hx Hy) as (n & Hn & Hsign).
    rewrite Hn. simpl. destruct (Qle_bool n 0) eqn:Hle.
    + eexists. split; [done|].
      assert (Hxy : before comparefn x y).
      { exists n. split; [done|]. by apply Qle_bool_iff. }
      constructor; [by constructor|]. constructor; [done|].
      rewrite Forall_forall in Hyl, Hl |- *. intros z Hz.
      apply (before_trans x y z); auto.
    + destruct (IH Hl Hsorted) as (s & Hs & Hss). rewrite Hs. simpl.
      eexists. split; [done|]. constructor; [done|].
      apply insertSorted_Permutation in Hs. rewrite Hs.
      constructor; [|done].
      destruct (before_total x y Hx Hy) as [(m & Hm & Hm0)|]; [|done].
      rewrite Hn in Hm. injection Hm as <-.
      apply Qle_bool_iff in Hm0. congruence.
Qed.

Lemma arraySort_sorted l :
  Forall P l →
  ∃ s, arraySort comparefn l = Some s ∧ s ≡ₚ l ∧
       StronglySorted (before comparefn) s.
Proof.
  induction l as [|x l IH]; intros Hl; simpl.
  - exists []. repeat split; [done|constructor].
  - apply Forall_cons in Hl as [Hx Hl].
    destruct (IH Hl) as (s & Hs & Hperm & Hsorted). rewrite Hs. simpl.
    destruct (insertSorted_sorted x s Hx) as (s' & Hs' & Hsorted');
      [by rewrite Hperm|done|].
    exists s'. split; [done|]. split; [|done].
    apply insertSorted_Permutation in Hs'. by rewrite Hs', Hperm.
Qed.
End ArraySortProperties.

(** ** The comparators of sortFields *)

Lemma sidecarFirst_consistent : Consistent sidecarFirst.
Proof.
  split.
  - by intros [] [].
  - by intros o [] [] []; simpl; intros <-.
Qed.

Lemma optionCompare_consistent : Consistent optionCompare.
Proof.
  destruct Qcompare_consistent as [Hsym Htrans]. split.
  - intros [x|] [y|]; simpl; auto.
  - intros o [x|] [y|] [z|]; simpl; try congruence. apply Htrans.
Qed.

Section SortFieldProperties.
Context `{Imports} `{!CollationLaws}.

Lemma byName_consistent : Consistent byName.
Proof. apply (key_consistent name), collation_consistent. Qed.

Lemma primaryOrder_consistent i : Consistent (primaryOrder i).
Proof.
  destruct i as [|[|[|i]]]; simpl.
  - apply (key_consistent namespace), collation_consistent.
  - apply byName_consistent.
  - apply (key_consistent istioSidecar), sidecarFirst_consistent.
  - apply (key_consistent errorRatio), optionCompare_consistent.
Qed.

Lemma order_consistent i : Consistent (lex (primaryOrder i) byName).
Proof.
  apply lex_consistent; [apply primaryOrder_consistent|apply byName_consistent].
Qed.

(** The sign of each comparator: the primary key first, the name on a tie. *)
Lemma compare_sign i f a b n :
  sortFields !! i = Some f → compare f a b = Some n →
  sign n = lex (primaryOrder i) byName a b.
Proof.
  destruct i as [|[|[|[|i]]]]; simpl; [| | | |done]; intros [= <-]; simpl.
  - intros [= <-]. unfold lex, byNamespace, byName, byString.
    destruct (Qeq_bool _ 0) eqn:Hz.
    + apply sign_eq in Hz. by rewrite Hz.
    + destruct (sign (localeCompare (namespace a) (namespace b))) eqn:Hs;
        [|done..].
      apply sign_eq in Hs. congruence.
  - intros [= <-]. unfold lex, byName, byString. by destruct (sign _).
  - unfold lex, bySidecar, byName, byString.
    by destruct (istioSidecar a), (istioSidecar b); simpl; intros [= <-].
  - unfold lex, byErrorRatio, errorRatio, byName, byString.
    destruct (health a) as [ha|]; simpl; [|done].
    destruct (health b) as [hb|]; simpl; [|done].
    intros [= <-]. destruct (Qeq_bool _ _) eqn:Hz.
    + apply Qeq_bool_iff, Qeq_alt in Hz. by rewrite Hz.
    + rewrite sign_minus.
      destruct (_ ?= _)%Q eqn:Hs; [|done..].
      apply Qeq_alt, Qeq_bool_iff in Hs. congruence.
Qed.

Lemma compare_defined i f a b :
  sortFields !! i = Some f → ready f a → ready f b → is_Some (compare f a b).
Proof.
  unfold ready.
  destruct i as [|[|[|[|i]]]]; simpl; [| | | |done]; intros [= <-]; simpl;
    try done.
  - intros _ _. by repeat case_match.
  - destruct (health a), (health b); simpl; try done.
    all: by intros [] [].
Qed.
End SortFieldProperties.

(** C5 (amended). Every comparator of sortFields is a consistent comparator
    on the items it can be applied to: it is defined on any two of them, the
    sign of its result is antisymmetric, and "before", "tie" and "after" are
    each transitive. When the primary key of the field ties, the result is
    the comparison of the names. The comparator of 'Namespace' (index 0) is
    strict under a separating collation; nothing of the kind is stated of
    the three others, which tie on two items of the same name and primary
    key that live in different namespaces. *)
Theorem sortFields_comparators_consistent `{Imports} `{!CollationLaws} i f :
  sortFields !! i = Some f →
  (∀ a b, ready f a → ready f b → is_Some (compare f a b)) ∧
  (∀ a b n m,
     compare f a b = Some n → compare f b a = Some m →
     sign m = CompOpp (sign n)) ∧
  (∀ o a b c n m k,
     compare f a b = Some n → compare f b c = Some m →
     compare f a c = Some k →
     sign n = o → sign m = o → sign k = o) ∧
  (∀ a b n,
     compare f a b = Some n →
     sign n = match primaryOrder i a b with
              | Eq => byName a b
              | o => o
              end) ∧
  (i = 0 → Separating → strict f).
Proof.
  intros Hf. pose proof (order_consistent i) as [Hsym Htrans].
  repeat split.
  - intros a b. by apply compare_defined with i.
  - intros a b n m Hn Hm.
    rewrite (compare_sign i f a b n), (compare_sign i f b a m) by done.
    apply Hsym.
  - intros o a b c n m k Hn Hm Hk.
    rewrite (compare_sign i f a b n), (compare_sign i f b c m),
      (compare_sign i f a c k) by done.
    apply Htrans.
  - intros a b n Hn. by rewrite (compare_sign i f a b n).
  - intros -> Hsep a b n Hid Hn Hsign.
    rewrite (compare_sign 0 f a b n) in Hsign by done.
    unfold lex in Hsign. simpl in Hsign. apply Hid. unfold identity.
    destruct (byNamespace a b) eqn:Hns; [|done..].
    apply Hsep in Hns. apply Hsep in Hsign. congruence.
Qed.

Lemma sortFields_comparators_consistent_witness :
  @sortFields ordinalImports !! 0 = Some namespaceField ∧
  compare namespaceField reviewsBookinfo reviewsStaging = Some (-1)%Q ∧
  compare namespaceField reviewsStaging reviewsBookinfo = Some 1%Q ∧
  sign 1 = CompOpp (sign (-1)) ∧
  strict namespaceField.
Proof.
  pose proof (@sortFields_comparators_consistent ordinalImports ordinal_laws
                0 namespaceField eq_refl) as (_ & Hsym & _ & _ & Hstrict).
  split; [reflexivity|]. split; [reflexivity|]. split; [reflexivity|].
  split.
  - by apply (Hsym reviewsBookinfo reviewsStaging).
  - apply Hstrict; [reflexivity|apply ordinal_separating].
Defined.

(** C5 as stated fails: the comparator of 'Service Name' reports a tie
    between the reviews services of two namespaces, so not every comparator
    is strict. *)
Lemma sortFields_not_all_strict :
  ¬ (∀ f, f ∈ @sortFields ordinalImports → strict f).
Proof.
  intros Hstrict.
  apply (Hstrict serviceNameField) with reviewsBookinfo reviewsStaging 0%Q.
  - unfold serviceNameField. simpl. set_solver.
  - by intros [=].
  - reflexivity.
  - reflexivity.
Qed.

(** The order of two such services after a sort by name is the order they
    had before it. *)
Example serviceName_sort_keeps_input_order :
  arraySort (compare serviceNameField) [reviewsBookinfo; reviewsStaging]
    = Some [reviewsBookinfo; reviewsStaging] ∧
  arraySort (compare serviceNameField) [reviewsStaging; reviewsBookinfo]
    = Some [reviewsStaging; reviewsBookinfo].
Proof. split; reflexivity. Qed.

(** ** The join of the health promises *)

Section Join.
Context `{Imports}.
Implicit Types (ps : list (loc * promise ServiceHealth)) (h : heap).
Implicit Types (j : joinState) (schedule : list nat).

Lemma settleAll_snoc ps schedule st i :
  settleAll ps (schedule ++ [i]) st = settleOne ps (settleAll ps schedule st) i.
Proof. unfold settleAll. by rewrite foldl_app. Qed.

Lemma setHealth_resolved hl it :
  healthPromise it = Fulfilled hl → setHealth hl (resolved it) = resolved it.
Proof. unfold resolved. by intros ->. Qed.

Lemma settleOne_fulfilled ps st i r :
  fulfilledAt ps i = Some r →
  ∃ hl, ps !! i = Some (r, Fulfilled hl) ∧
        (settleOne ps st i).1 = attachHealth st.1 r hl.
Proof.
  unfold fulfilledAt, settleOne.
  destruct (ps !! i) as [[r0 [|hl|e]]|]; intros [= <-]. by exists hl.
Qed.

Lemma settleOne_not_fulfilled ps st i :
  fulfilledAt ps i = None → (settleOne ps st i).1 = st.1.
Proof.
  unfold fulfilledAt, settleOne.
  by destruct (ps !! i) as [[r0 [|hl|e]]|].
Qed.

(** The heap after the schedule: no array has changed, and the items whose
    promise was fulfilled along the schedule carry their health. *)
Lemma settleAll_heap ps schedule h j :
  gathered h ps →
  arrays (settleAll ps schedule (h, j)).1 = arrays h ∧
  ∀ r, items (settleAll ps schedule (h, j)).1 !! r =
       if decide (r ∈ omap (fulfilledAt ps) schedule)
       then resolved <$> items h !! r else items h !! r.
Proof.
  intros Hps. induction schedule as [|i schedule IH] using rev_ind.
  - split; [done|]. intros r. by rewrite decide_False by apply not_elem_of_nil.
  - rewrite settleAll_snoc, omap_app. destruct IH as [IHa IHi]. simpl.
    destruct (fulfilledAt ps i) as [r0|] eqn:Hf.
    + destruct (settleOne_fulfilled ps (settleAll ps schedule (h, j)) i r0 Hf)
        as (hl & Hi & ->).
      split; [done|]. intros r. simpl.
      destruct (Hps i r0 _ Hi) as (it & Hit & Hhl).
      destruct (decide (r = r0)) as [->|Hne].
      * rewrite lookup_alter_eq, IHi, Hit. simpl.
        destruct (decide (r0 ∈ _ ++ [r0])) as [_|Hn]; [|set_solver].
        case_decide; simpl; f_equal.
        -- by apply setHealth_resolved.
        -- unfold resolved. by rewrite Hhl.
      * rewrite lookup_alter_ne, IHi by done.
        repeat case_decide; set_solver.
    + rewrite settleOne_not_fulfilled, app_nil_r by done. by split.
Qed.

Lemma settleAll_values_length ps schedule h j :
  length (values (settleAll ps schedule (h, j)).2) = length (values j).
Proof.
  induction schedule as [|i schedule IH] using rev_ind; [done|].
  rewrite settleAll_snoc. unfold settleOne at 1.
  destruct (ps !! i) as [[r0 [|hl|e]]|]; simpl; try done.
  by rewrite length_insert.
Qed.

Lemma settleAll_values ps schedule h j k r :
  k ∈ schedule → fulfilledAt ps k = Some r → k < length (values j) →
  values (settleAll ps schedule (h, j)).2 !! k = Some (Some r).
Proof.
  intros Hk Hr Hlen. induction schedule as [|i schedule IH] using rev_ind.
  - by apply elem_of_nil in Hk.
  - rewrite settleAll_snoc. unfold settleOne at 1.
    destruct (decide (i = k)) as [->|Hne].
    + unfold fulfilledAt in Hr.
      destruct (ps !! k) as [[r0 [|hl|e]]|]; simplify_eq/=.
      apply list_lookup_insert_eq. by rewrite settleAll_values_length.
    + assert (k ∈ schedule) as Hk' by set_solver.
      destruct (ps !! i) as [[r0 [|hl|e]]|]; simpl; auto.
      rewrite list_lookup_insert_ne by done. auto.
Qed.

(** Without a rejected promise in the schedule the join is not rejected. *)
Lemma settleAll_rejection_None ps schedule h j :
  Forall (λ i, rejectedAt ps i = None) schedule →
  rejection (settleAll ps schedule (h, j)).2 = rejection j.
Proof.
  induction schedule as [|i schedule IH] using rev_ind; [done|].
  rewrite Forall_app, Forall_singleton. intros [Hs Hi].
  rewrite settleAll_snoc. unfold settleOne at 1. unfold rejectedAt in Hi.
  destruct (ps !! i) as [[r0 [|hl|e]]|]; simpl; auto. done.
Qed.

(** A rejected join stays rejected with the same reason. *)
Lemma settleAll_rejection_Some ps schedule h j e :
  rejection j = Some e →
  rejection (settleAll ps schedule (h, j)).2 = Some e.
Proof.
  intros He. induction schedule as [|i schedule IH] using rev_ind; [done|].
  rewrite settleAll_snoc. unfold settleOne at 1.
  destruct (ps !! i) as [[r0 [|hl|e']]|]; simpl; auto. by rewrite IH.
Qed.

Lemma settleAll_app ps s1 s2 st :
  settleAll ps (s1 ++ s2) st = settleAll ps s2 (settleAll ps s1 st).
Proof. unfold settleAll. by rewrite foldl_app. Qed.

(** The join is rejected with the reason of the first rejected promise of
    the schedule. *)
Lemma settleAll_first_rejection ps s1 i s2 h j e :
  rejection j = None →
  Forall (λ k, rejectedAt ps k = None) s1 →
  rejectedAt ps i = Some e →
  rejection (settleAll ps (s1 ++ i :: s2) (h, j)).2 = Some e.
Proof.
  intros Hj Hs1 Hi.
  rewrite settleAll_app. change (i :: s2) with ([i] ++ s2).
  rewrite settleAll_app.
  destruct (settleAll ps [i] (settleAll ps s1 (h, j))) as [h1 j1] eqn:Hst.
  apply settleAll_rejection_Some.
  pose proof (settleAll_rejection_None ps s1 h j Hs1) as Hnone.
  rewrite Hj in Hnone. simpl in Hst. unfold settleOne in Hst.
  unfold rejectedAt in Hi.
  destruct (ps !! i) as [[r0 [|hl|e']]|]; simplify_eq/=. by rewrite Hnone.
Qed.

(** The first element of a list with a property splits the list. *)
Lemma first_split {A} (P : A → Prop) `{∀ x, Decision (P x)} (l : list A) :
  Exists P l → ∃ l1 x l2, l = l1 ++ x :: l2 ∧ P x ∧ Forall (λ y, ¬ P y) l1.
Proof.
  induction l as [|y l IH]; intros Hex; [by apply Exists_nil in Hex|].
  destruct (decide (P y)) as [Hy|Hy].
  - exists [], y, l. by repeat split.
  - apply Exists_cons in Hex as [?|Hex]; [done|].
    destruct (IH Hex) as (l1 & x & l2 & -> & Hx & Hl1).
    exists (y :: l1), x, l2. repeat split; [done|]. by constructor.
Qed.
End Join.

(** ** sortServices *)

Section SortServicesProperties.
Context `{Imports} `{!CollationLaws}.
Implicit Types (h : heap) (f : SortField) (l s : list loc).

Lemma ready_sync i f it : i < 3 → sortFields !! i = Some f → ready f it.
Proof.
  unfold ready.
  destruct i as [|[|[|i]]]; [| | |lia]; intros _ [= <-]; simpl; try done.
  by repeat case_match.
Qed.

Lemma ready_errorRate f it :
  sortFields !! 3 = Some f → is_Some (health it) → ready f it.
Proof. intros [= <-] [hl Hhl]. unfold ready. simpl. by rewrite Hhl. Qed.

Lemma title_sync i f :
  i < 3 → sortFields !! i = Some f → title f ≠ "Error Rate".
Proof. destruct i as [|[|[|i]]]; [| | |lia]; by intros _ [= <-]. Qed.

(** [arr.sort(cmp)] with the comparator of a sort field, on an array whose
    elements are items the comparator applies to. *)
Lemma sortInPlace_sorted i f asc h a l :
  sortFields !! i = Some f →
  arrays h !! a = Some l →
  Forall (λ r, ∃ it, items h !! r = Some it ∧ ready f it) l →
  ∃ s,
    sortInPlace h a (comparator f asc)
      = Some {| arrays := <[a := s]> (arrays h); items := items h |} ∧
    s ≡ₚ l ∧
    StronglySorted (before (compareAt h (comparator f asc))) s.
Proof.
  intros Hf Ha Hl. unfold sortInPlace. rewrite Ha. simpl.
  set (ord := if asc then lex (primaryOrder i) byName
              else flip (lex (primaryOrder i) byName)).
  assert (Consistent ord) as Hord.
  { destruct asc; [|apply flip_consistent]; apply order_consistent. }
  destruct (arraySort_sorted (compareAt h (comparator f asc))
              (λ x y, ord (default blankItem (items h !! x))
                          (default blankItem (items h !! y)))
              (λ r, ∃ it, items h !! r = Some it ∧ ready f it)) with l
    as (s & Hs & Hperm & Hsorted); [| |done|].
  - by apply (key_consistent (λ x, default blankItem (items h !! x))).
  - intros x y (itx & Hx & Rx) (ity & Hy & Ry).
    unfold compareAt. rewrite Hx, Hy. simpl. unfold ord, comparator.
    destruct asc.
    + destruct (compare_defined i f itx ity) as [n Hn]; [done..|].
      exists n. split; [done|]. by apply compare_sign with f.
    + destruct (compare_defined i f ity itx) as [n Hn]; [done..|].
      exists n. split; [done|]. by apply compare_sign with f.
  - exists s. by rewrite Hs.
Qed.

(** The path of lines 101-103, for the three fields that do not need the
    health. *)
Lemma sortServices_sync_eq i f asc h schedule svc l :
  i < 3 → sortFields !! i = Some f →
  arrays h !! svc = Some l →
  Forall (λ r, is_Some (items h !! r)) l →
  ∃ s,
    sortServices h schedule svc f asc
      = ({| arrays := <[svc := s]> (arrays h); items := items h |},
         Return (Fulfilled svc)) ∧
    s ≡ₚ l ∧
    StronglySorted (before (compareAt h (comparator f asc))) s.
Proof.
  intros Hi Hf Hsvc Hl.
  destruct (sortInPlace_sorted i f asc h svc l) as (s & Hs & Hperm & Hsorted);
    [done..| |].
  { eapply Forall_impl; [done|]. intros r [it Hit]. exists it.
    split; [done|]. by apply ready_sync with i. }
  exists s. split; [|done]. unfold sortServices. rewrite Hsvc.
  rewrite decide_False by by apply title_sync with i. by rewrite Hs.
Qed.
End SortServicesProperties.

Lemma StronglySorted_impl {A} (R R' : A → A → Prop) (l : list A) :
  (∀ x y, R x y → R' x y) → StronglySorted R l → StronglySorted R' l.
Proof.
  intros HR. induction 1 as [|x l Hl IH Hx]; constructor; [done|].
  eapply Forall_impl; [done|]. apply HR.
Qed.

Lemma before_inOrder `{Imports} h f asc r1 r2 :
  before (compareAt h (comparator f asc)) r1 r2 → inOrder h f asc r1 r2.
Proof.
  intros (n & Hn & Hle). unfold compareAt in Hn.
  destruct (items h !! r1) as [a|] eqn:Ha; [|done].
  destruct (items h !! r2) as [b|] eqn:Hb; [|done].
  exists a, b, n. split_and!; [done..| |done]. unfold comparator in Hn.
  by destruct asc.
Qed.

(** Off the 'Error Rate' path the schedule of the promises plays no part. *)
Lemma sortServices_no_schedule `{Imports} h schedule svc f asc :
  title f ≠ "Error Rate" →
  sortServices h schedule svc f asc = sortServices h [] svc f asc.
Proof.
  intros Hf. unfold sortServices. destruct (arrays h !! svc); [|done].
  by destruct (decide (title f = "Error Rate")).
Qed.

(** C3. For each of the fields 'Namespace', 'Service Name' and 'Istio
    Sidecar' (the first three of sortFields) and every array of items,
    sortServices returns a promise that is already fulfilled, whatever the
    health promises do and whether or not any of them has settled; the
    array it is fulfilled with holds a permutation of the input, in the order
    of the field's comparator, reversed when isAscending is false. *)
Theorem sortServices_sync `{Imports} `{!CollationLaws} i f asc h svc l :
  i < 3 → sortFields !! i = Some f →
  arrays h !! svc = Some l →
  Forall (λ r, is_Some (items h !! r)) l →
  ∃ h' sorted s,
    (∀ schedule,
       sortServices h schedule svc f asc = (h', Return (Fulfilled sorted))) ∧
    arrays h' !! sorted = Some s ∧
    items h' = items h ∧
    s ≡ₚ l ∧
    StronglySorted (inOrder h' f asc) s.
Proof.
  intros Hi Hf Hsvc Hl.
  destruct (sortServices_sync_eq i f asc h [] svc l)
    as (s & Hrun & Hperm & Hsorted); [done..|].
  eexists _, svc, s. split; [|split; [|split; [|split]]].
  - intros schedule. rewrite sortServices_no_schedule; [done|].
    by apply title_sync with i.
  - simpl. apply lookup_insert_eq.
  - done.
  - done.
  - eapply StronglySorted_impl; [|done]. intros x y Hxy.
    by apply before_inOrder in Hxy.
Qed.

(** The comparators of the first three fields return on any two items. *)
Lemma compare_sync_is_Some `{Imports} i f (a b : ServiceItem) :
  i < 3 → sortFields !! i = Some f → is_Some (compare f a b).
Proof.
  destruct i as [|[|[|i]]]; [| | |lia]; intros _ [= <-]; simpl; try done.
  by repeat case_match.
Qed.

(** C10. For each of the fields 'Namespace', 'Service Name' and 'Istio
    Sidecar', the promise of sortServices is fulfilled with the very array
    that was passed in, and no array is created: afterwards the heap holds,
    at that reference, where every holder of the array reads it, the result
    of the sort, which is a permutation of the former content in the order
    of the field's comparator, reversed when isAscending is false. Nothing
    else in the heap has changed. *)
Theorem sortServices_in_place `{Imports} `{!CollationLaws}
    i f asc h schedule svc l :
  i < 3 → sortFields !! i = Some f →
  arrays h !! svc = Some l →
  Forall (λ r, is_Some (items h !! r)) l →
  ∃ h' s,
    sortServices h schedule svc f asc = (h', Return (Fulfilled svc)) ∧
    h' = {| arrays := <[svc := s]> (arrays h); items := items h |} ∧
    arraySort (compareAt h (comparator f asc)) l = Some s ∧
    s ≡ₚ l ∧
    StronglySorted (inOrder h' f asc) s.
Proof.
  intros Hi Hf Hsvc Hl.
  destruct (sortServices_sync_eq i f asc h schedule svc l)
    as (s & Hrun & Hperm & Hsorted); [done..|].
  eexists _, s. split_and!; [done|done| |done|].
  - unfold sortServices, sortInPlace in Hrun. rewrite Hsvc in Hrun.
    rewrite decide_False in Hrun by by apply title_sync with i.
    simpl in Hrun.
    destruct (arraySort (compareAt h (comparator f asc)) l) as [s'|];
      [|done].
    simpl in Hrun. injection Hrun as Harrays.
    apply (f_equal (λ m, m !! svc)) in Harrays.
    rewrite !lookup_insert_eq in Harrays. by simplify_eq.
  - eapply StronglySorted_impl; [|done]. intros x y Hxy.
    by apply before_inOrder in Hxy.
Qed.

Lemma sortServices_sync_witness :
  ∃ h' sorted s,
    (∀ schedule,
       sortServices bookinfoHeap schedule 0 namespaceField true
         = (h', Return (Fulfilled sorted))) ∧
    arrays h' !! sorted = Some s ∧
    items h' = items bookinfoHeap ∧
    s ≡ₚ [0; 1; 2] ∧
    StronglySorted (inOrder h' namespaceField true) s.
Proof.
  apply (@sortServices_sync ordinalImports ordinal_laws 0).
  - lia.
  - reflexivity.
  - reflexivity.
  - repeat constructor; by eexists.
Defined.

Lemma sortServices_in_place_witness :
  ∃ (h' : @heap ordinalImports) s,
    sortServices bookinfoHeap [] 0 serviceNameField true
      = (h', Return (Fulfilled 0)) ∧
    h' = {| arrays := <[0 := s]> (arrays bookinfoHeap);
            items := items bookinfoHeap |} ∧
    arraySort (compareAt bookinfoHeap (comparator serviceNameField true))
        [0; 1; 2]
      = Some s ∧
    s ≡ₚ [0; 1; 2] ∧
    StronglySorted (inOrder h' serviceNameField true) s.
Proof.
  apply (@sortServices_in_place ordinalImports ordinal_laws 1).
  - lia.
  - reflexivity.
  - reflexivity.
  - repeat constructor; by eexists.
Defined.

(** By the name, ascending: details moves to the front of the array at
    reference 0, and the two reviews keep their order. *)
Example sortServices_serviceName_run :
  sortServices bookinfoHeap [] 0 serviceNameField true
    = ({| arrays := {[ 0 := [2; 0; 1] ]}; items := items bookinfoHeap |},
       Return (Fulfilled 0)).
Proof. vm_compute. reflexivity. Qed.

(** By the namespace: details and reviews of bookinfo, then reviews of
    staging; the array at reference 0 is the one that changed. *)
Example sortServices_namespace_run :
  sortServices bookinfoHeap [] 0 namespaceField true
    = ({| arrays := {[ 0 := [2; 1; 0] ]}; items := items bookinfoHeap |},
       Return (Fulfilled 0)).
Proof. vm_compute. reflexivity. Qed.

(** ** The 'Error Rate' path of sortServices *)
Section ErrorRate.
Context `{Imports}.
Implicit Types (h : heap) (f : SortField) (l s : list loc).
Implicit Types (ps : list (loc * promise ServiceHealth)).

Lemma gather_spec h l ps :
  mapM (λ item, it ← items h !! item; Some (item, healthPromise it)) l = Some ps →
  gathered h ps ∧ ps.*1 = l.
Proof.
  intros Hm%mapM_Some_1.
  induction Hm as [|r [r1 p1] l ps Hr Hm [IHg IHl]].
  - split; [|done]. by intros i r p.
  - destruct (items h !! r) as [it|] eqn:Hit; simplify_eq/=.
    split; [|done]. intros [|i] r' p; simpl.
    + intros [= <- <-]. by exists it.
    + apply IHg.
Qed.

Lemma gather_defined h l :
  Forall (λ r, is_Some (items h !! r)) l →
  is_Some (mapM (λ item, it ← items h !! item;
                         Some (item, healthPromise it)) l).
Proof.
  intros Hl. apply mapM_is_Some_2. eapply Forall_impl; [done|].
  intros r [it Hit]. simpl. by rewrite Hit.
Qed.

Lemma gathered_lookup h l ps i r :
  gathered h ps → ps.*1 = l → l !! i = Some r →
  ∃ it, items h !! r = Some it ∧ ps !! i = Some (r, healthPromise it).
Proof.
  intros Hg <- Hi. rewrite list_lookup_fmap in Hi.
  destruct (ps !! i) as [[r' p]|] eqn:Hp; simplify_eq/=.
  destruct (Hg i r p Hp) as (it & Hit & <-). by exists it.
Qed.

Lemma sameFields_resolved (it : ServiceItem) : sameFields it (resolved it).
Proof. unfold resolved. by destruct (healthPromise it). Qed.

(** Whatever the schedule, the items keep every property but [health], and
    no array changes while the promises settle. *)
Lemma settleAll_frame h ps schedule j :
  gathered h ps →
  arrays (settleAll ps schedule (h, j)).1 = arrays h ∧
  ∀ r, option_Forall2 sameFields
         (items h !! r) (items (settleAll ps schedule (h, j)).1 !! r).
Proof.
  intros Hg. destruct (settleAll_heap ps schedule h j Hg) as [Ha Hi].
  split; [done|]. intros r. rewrite Hi.
  destruct (items h !! r) as [it|]; case_decide; simpl; constructor;
    try done.
  apply sameFields_resolved.
Qed.
End ErrorRate.

(** C2. When the field is 'Error Rate' and the health promise of some item
    of the array is rejected, the promise returned by sortServices is
    rejected, with the reason of the promise that was rejected first in the
    order of settlement. updateSortField then leaves the state of the
    component as it was, the list of services included; in the heap no
    array has changed, and the items have kept their name, namespace,
    sidecar flag and health promise. *)
Theorem sortServices_rejects `{Imports} st h schedule f l :
  title f = "Error Rate" →
  arrays h !! services st = Some l →
  Forall (λ r, is_Some (items h !! r)) l →
  (∃ i r it e,
     l !! i = Some r ∧ items h !! r = Some it ∧
     healthPromise it = Rejected e ∧ i ∈ schedule) →
  ∃ s1 i s2 r it e h',
    schedule = s1 ++ i :: s2 ∧
    l !! i = Some r ∧ items h !! r = Some it ∧
    healthPromise it = Rejected e ∧
    (∀ k r' it' e',
       k ∈ s1 → l !! k = Some r' → items h !! r' = Some it' →
       healthPromise it' ≠ Rejected e') ∧
    sortServices h schedule (services st) f (isSortAscending st)
      = (h', Return (Rejected e)) ∧
    updateSortField st h schedule f = (h', st, [], Some e) ∧
    arrays h' = arrays h ∧
    (∀ r0, option_Forall2 sameFields (items h !! r0) (items h' !! r0)).
Proof.
  intros Htitle Hsvc Hl (i0 & r0 & it0 & e0 & Hli0 & Hit0 & Hrej0 & Hin0).
  destruct (gather_defined h l Hl) as [ps Hps].
  destruct (gather_spec h l ps Hps) as [Hg Hfst].
  assert (Exists (λ k, is_Some (rejectedAt ps k)) schedule) as Hex.
  { apply Exists_exists. exists i0. split; [done|].
    destruct (gathered_lookup h l ps i0 r0 Hg Hfst Hli0) as (it & Hit & Hp).
    unfold rejectedAt. rewrite Hp. simplify_eq. by rewrite Hrej0. }
  apply first_split in Hex as (s1 & i & s2 & -> & [e He] & Hs1);
    [|apply _].
  assert (∃ r it, l !! i = Some r ∧ items h !! r = Some it ∧
                  healthPromise it = Rejected e) as (r & it & Hli & Hit & Hrej).
  { unfold rejectedAt in He.
    destruct (ps !! i) as [[r [|hl|e']]|] eqn:Hp; simplify_eq/=.
    destruct (Hg i r _ Hp) as (it & Hit & Hrej). exists r, it.
    split; [|done]. by rewrite list_lookup_fmap, Hp. }
  assert (Forall (λ k, rejectedAt ps k = None) s1) as Hnone.
  { eapply Forall_impl; [done|]. intros k Hk. simpl in Hk.
    destruct (rejectedAt ps k); [|done]. by destruct Hk. }
  set (start := {| values := replicate (length l) None; rejection := None |}).
  pose proof (settleAll_first_rejection ps s1 i s2 h start e eq_refl Hnone He)
    as Hrejection.
  destruct (settleAll_frame h ps (s1 ++ i :: s2) start Hg) as [Harrays Hitems].
  assert (sortServices h (s1 ++ i :: s2) (services st) f (isSortAscending st)
          = ((settleAll ps (s1 ++ i :: s2) (h, start)).1, Return (Rejected e)))
    as Hrun.
  { unfold sortServices. rewrite Hsvc, decide_True, Hps by done. fold start.
    destruct (settleAll ps (s1 ++ i :: s2) (h, start)) as [h1 j].
    simpl in Hrejection. unfold joined. by rewrite Hrejection. }
  exists s1, i, s2, r, it, e, (settleAll ps (s1 ++ i :: s2) (h, start)).1.
  split_and!; try done.
  - intros k r' it' e' Hk Hlk Hit' Hrej'.
    rewrite Forall_forall in Hnone. specialize (Hnone k Hk).
    destruct (gathered_lookup h l ps k r' Hg Hfst Hlk) as (it'' & Hit'' & Hp).
    unfold rejectedAt in Hnone. rewrite Hp in Hnone. simplify_eq.
    by rewrite Hrej' in Hnone.
  - unfold updateSortField. by rewrite Hrun.
Qed.

(** The request for details (index 2) fails; it settles second, between the
    two others. *)
Lemma sortServices_rejects_witness :
  ∃ s1 i s2 r it e h',
    [1; 2; 0] = s1 ++ i :: s2 ∧
    [0; 1; 2] !! i = Some r ∧ items bookinfoHeap !! r = Some it ∧
    healthPromise it = Rejected e ∧
    (∀ k r' it' e',
       k ∈ s1 → [0; 1; 2] !! k = Some r' →
       items bookinfoHeap !! r' = Some it' →
       healthPromise it' ≠ Rejected e') ∧
    sortServices bookinfoHeap [1; 2; 0] (services bookinfoState)
        errorRateField (isSortAscending bookinfoState)
      = (h', Return (Rejected e)) ∧
    updateSortField bookinfoState bookinfoHeap [1; 2; 0] errorRateField
      = (h', bookinfoState, [], Some e) ∧
    arrays h' = arrays bookinfoHeap ∧
    (∀ r0, option_Forall2 sameFields
             (items bookinfoHeap !! r0) (items h' !! r0)).
Proof.
  apply (@sortServices_rejects ordinalImports bookinfoState bookinfoHeap
           [1; 2; 0] errorRateField [0; 1; 2]).
  - reflexivity.
  - reflexivity.
  - repeat constructor; by eexists.
  - exists 2, 2, detailsBookinfo, (AxiosError "timeout").
    split_and!; [reflexivity..|]. set_solver.
Defined.

(** The same run, computed: the promise is rejected with the transport
    error, and the two items whose request was answered carry their health
    all the same. *)
Example sortServices_rejected_run :
  (sortServices bookinfoHeap [1; 2; 0] 0 errorRateField true).2
    = Return (Rejected (AxiosError "timeout")) ∧
  items (sortServices bookinfoHeap [1; 2; 0] 0 errorRateField true).1
    = {[ 0 := setHealth (healthOf 8 0) reviewsStaging;
         1 := setHealth (healthOf 4 1) reviewsBookinfo;
         2 := detailsBookinfo ]}.
Proof. split; vm_compute; reflexivity. Qed.

(** C1 (amended). When the field is 'Error Rate', the health promise of
    every item of the array is fulfilled and all of them have settled,
    sortServices returns a promise fulfilled with a new array: the array
    passed in keeps its order. Each item of the array has received, in
    place, the health its promise was fulfilled with; the items outside the
    array are as they were. The new array is a permutation of the input, in
    the order of the comparator applied to the items with their health. *)
Theorem sortServices_errorRate `{Imports} `{!CollationLaws}
    f asc h schedule svc l :
  sortFields !! 3 = Some f →
  arrays h !! svc = Some l →
  Forall (λ r, ∃ it hl, items h !! r = Some it ∧
                         healthPromise it = Fulfilled hl) l →
  (∀ i, i < length l → i ∈ schedule) →
  ∃ h' sorted s,
    sortServices h schedule svc f asc = (h', Return (Fulfilled sorted)) ∧
    arrays h !! sorted = None ∧
    arrays h' = <[sorted := s]> (arrays h) ∧
    (∀ r, items h' !! r =
          if decide (r ∈ l) then resolved <$> items h !! r
          else items h !! r) ∧
    s ≡ₚ l ∧
    StronglySorted (inOrder h' f asc) s.
Proof.
  intros Hf Hsvc Hl Hall.
  assert (Forall (λ r, is_Some (items h !! r)) l) as Hl'.
  { eapply Forall_impl; [done|]. intros r (it & _ & Hit & _). by exists it. }
  destruct (gather_defined h l Hl') as [ps Hps].
  destruct (gather_spec h l ps Hps) as [Hg Hfst].
  rewrite Forall_forall in Hl.
  assert (∀ i r, l !! i = Some r → fulfilledAt ps i = Some r) as Hful.
  { intros i r Hi.
    destruct (gathered_lookup h l ps i r Hg Hfst Hi) as (it & Hit & Hp).
    destruct (Hl r) as (it' & hl & Hit' & Hhl);
      [by apply list_elem_of_lookup_2 with i|].
    unfold fulfilledAt. rewrite Hp. simplify_eq. by rewrite Hhl. }
  assert (∀ r, r ∈ omap (fulfilledAt ps) schedule ↔ r ∈ l) as Hmem.
  { intros r. rewrite list_elem_of_omap. split.
    - intros (i & _ & Hi). unfold fulfilledAt in Hi.
      destruct (ps !! i) as [[r' [|hl|e]]|] eqn:Hp; simplify_eq/=.
      apply list_elem_of_fmap. exists (r, Fulfilled hl). split; [done|].
      by apply list_elem_of_lookup_2 with i.
    - intros (i & Hi)%list_elem_of_lookup_1. exists i. split; [|by auto].
      apply Hall. by apply lookup_lt_Some with r. }
  set (start := {| values := replicate (length l) None; rejection := None |}).
  destruct (settleAll_heap ps schedule h start Hg) as [Harrays Hitems].
  assert (rejection (settleAll ps schedule (h, start)).2 = None) as Hrej.
  { apply (settleAll_rejection_None ps schedule h start).
    apply Forall_forall. intros i _. unfold rejectedAt.
    destruct (ps !! i) as [[r p]|] eqn:Hp; [|done].
    destruct (Hg i r p Hp) as (it & Hit & <-).
    destruct (Hl r) as (it' & hl & Hit' & Hhl).
    { rewrite <-Hfst. apply list_elem_of_fmap. exists (r, healthPromise it).
      split; [done|]. by apply list_elem_of_lookup_2 with i. }
    simplify_eq. by rewrite Hhl. }
  assert (values (settleAll ps schedule (h, start)).2 = Some <$> l) as Hvalues.
  { apply list_eq. intros k. rewrite list_lookup_fmap.
    destruct (l !! k) as [r|] eqn:Hk; simpl.
    - apply settleAll_values; [|by auto|].
      + apply Hall. by apply lookup_lt_Some with r.
      + simpl. rewrite length_replicate. by apply lookup_lt_Some with r.
    - apply lookup_ge_None. rewrite settleAll_values_length. simpl.
      rewrite length_replicate. by apply lookup_ge_None. }
  destruct (settleAll ps schedule (h, start)) as [h1 j] eqn:Hsettle.
  simpl in Harrays, Hitems, Hrej, Hvalues.
  assert (joined j = Fulfilled l) as Hjoined.
  { unfold joined. rewrite Hrej, Hvalues.
    by rewrite (mapM_fmap_Some id Some l). }
  set (a := fresh (dom (arrays h1))).
  set (h2 := {| arrays := <[a := l]> (arrays h1); items := items h1 |}).
  destruct (sortInPlace_sorted 3 f asc h2 a l) as (s & Hs & Hperm & Hsorted).
  { done. }
  { simpl. apply lookup_insert_eq. }
  { apply Forall_forall. intros r Hr. simpl. rewrite Hitems.
    rewrite decide_True by by apply Hmem.
    destruct (Hl r Hr) as (it & hl & Hit & Hhl). rewrite Hit. simpl.
    eexists. split; [done|]. apply ready_errorRate; [done|].
    unfold resolved. rewrite Hhl. by eexists. }
  exists {| arrays := <[a := s]> (arrays h); items := items h1 |}, a, s.
  split_and!; try done.
  - unfold sortServices.
    assert (title f = "Error Rate") as Htitle by by injection Hf as <-.
    rewrite Hsvc, decide_True, Hps by done. fold start. rewrite Hsettle.
    rewrite Hjoined. fold a. fold h2. rewrite Hs. simpl.
    by rewrite insert_insert_eq, Harrays.
  - apply not_elem_of_dom. rewrite <-Harrays. apply is_fresh.
  - intros r. simpl. rewrite Hitems.
    destruct (decide (r ∈ l)) as [Hr|Hr].
    + rewrite decide_True; [done|]. by apply Hmem.
    + rewrite decide_False; [done|]. by rewrite Hmem.
  - eapply StronglySorted_impl; [|done]. intros x y Hxy.
    by apply before_inOrder in Hxy.
Qed.

Lemma sortServices_errorRate_witness :
  ∃ h' sorted s,
    sortServices reviewsHeap [1; 0] 0 errorRateField false
      = (h', Return (Fulfilled sorted)) ∧
    arrays reviewsHeap !! sorted = None ∧
    arrays h' = <[sorted := s]> (arrays reviewsHeap) ∧
    (∀ r, items h' !! r =
          if decide (r ∈ [0; 1]) then resolved <$> items reviewsHeap !! r
          else items reviewsHeap !! r) ∧
    s ≡ₚ [0; 1] ∧
    StronglySorted (inOrder h' errorRateField false) s.
Proof.
  apply (@sortServices_errorRate ordinalImports ordinal_laws).
  - reflexivity.
  - reflexivity.
  - repeat constructor; by eexists _, _.
  - intros i Hi. simpl in Hi.
    destruct i as [|[|i]]; [set_solver..|lia].
Defined.

(** The same run, computed. Descending by error rate: reviews of bookinfo
    (25 percent) before reviews of staging (0 percent). The result is the
    new array 1; the array 0 is as it was, and both items now have a
    health. *)
Example sortServices_errorRate_run :
  sortServices reviewsHeap [1; 0] 0 errorRateField false
    = ({| arrays := {[ 0 := [0; 1]; 1 := [1; 0] ]};
          items := {[ 0 := setHealth (healthOf 8 0) reviewsStaging;
                      1 := setHealth (healthOf 4 1) reviewsBookinfo ]} |},
       Return (Fulfilled 1)).
Proof. vm_compute. reflexivity. Qed.

(** C1 as stated fails: after the sort by 'Error Rate' the items of the
    heap are not the items it held before, for the health has been written
    into them. *)
Lemma sortServices_errorRate_mutates_items :
  ¬ (∀ (h : @heap ordinalImports) schedule svc l asc,
       arrays h !! svc = Some l →
       Forall (λ r, ∃ it hl, items h !! r = Some it ∧
                              healthPromise it = Fulfilled hl) l →
       (∀ i, i < length l → i ∈ schedule) →
       items (sortServices h schedule svc errorRateField asc).1 = items h).
Proof.
  intros Hsame.
  specialize (Hsame reviewsHeap [1; 0] 0 [0; 1] false).
  assert (items (sortServices reviewsHeap [1; 0] 0 errorRateField false).1 !! 0
          = items reviewsHeap !! 0) as Hitem.
  { rewrite Hsame; [done|done| |].
    - repeat constructor; by eexists _, _.
    - intros i Hi. simpl in Hi. destruct i as [|[|i]]; [set_solver..|lia]. }
  vm_compute in Hitem. discriminate Hitem.
Qed.

(** ** Filters *)

Lemma append_nil_l (s : string) : "" +:+ s = s.
Proof. reflexivity. Qed.

Lemma append_cons a (s t : string) : String a s +:+ t = String a (s +:+ t).
Proof. reflexivity. Qed.

Lemma prefix_spec sub s :
  String.prefix sub s = true ↔ ∃ post, s = sub +:+ post.
Proof.
  revert s. induction sub as [|a sub IH]; intros s; simpl.
  - split; [|by destruct s]. intros _. by exists s.
  - destruct s as [|b s]; simpl.
    + split; [done|]. by intros [post [=]].
    + setoid_rewrite append_cons.
      destruct (Ascii.ascii_dec a b) as [->|Hne].
      * rewrite IH. split; intros [post Hpost]; exists post; congruence.
      * split; [done|]. intros [post [= ? ?]]. done.
Qed.

Lemma includes_nil sub :
  includes "" sub = if String.prefix sub "" then true else false.
Proof. reflexivity. Qed.

Lemma includes_cons a s sub :
  includes (String a s) sub
  = if String.prefix sub (String a s) then true else includes s sub.
Proof. reflexivity. Qed.

Lemma includes_spec s sub : includes s sub = true ↔ contains s sub.
Proof.
  unfold contains.
  induction s as [|a s IH]; [rewrite includes_nil|rewrite includes_cons].
  - destruct (String.prefix sub "") eqn:Hp.
    + split; [|done]. intros _. apply prefix_spec in Hp as [post Hpost].
      by exists "", post.
    + split; [done|]. intros (pre & post & Hs).
      destruct pre; [|done]. rewrite append_nil_l in Hs.
      assert (String.prefix sub "" = true) by (apply prefix_spec; eauto).
      congruence.
  - destruct (String.prefix sub (String a s)) eqn:Hp.
    + split; [|done]. intros _. apply prefix_spec in Hp as [post Hpost].
      by exists "", post.
    + rewrite IH. split.
      * intros (pre & post & ->). by exists (String a pre), post.
      * intros (pre & post & Hs). destruct pre as [|b pre].
        -- rewrite append_nil_l in Hs.
           assert (String.prefix sub (String a s) = true)
             by (apply prefix_spec; eauto).
           congruence.
        -- rewrite append_cons in Hs. injection Hs as -> ->.
           by exists pre, post.
Qed.

Lemma someIncluded_spec serviceName fs :
  someIncluded serviceName fs = true ↔
  ∃ f, f ∈ fs ∧ contains serviceName f.
Proof.
  induction fs as [|f fs IH]; simpl.
  - split; [done|]. intros (f & Hf & _). by apply elem_of_nil in Hf.
  - destruct (includes serviceName f) eqn:Hf.
    + split; [|done]. intros _. exists f. split; [left|].
      by apply includes_spec.
    + rewrite IH. split.
      * intros (g & Hg & Hc). exists g. split; [by right|done].
      * intros (g & Hg & Hc). apply elem_of_cons in Hg as [->|Hg].
        -- apply includes_spec in Hc. congruence.
        -- by exists g.
Qed.

(** C4. For a service overview, a list of service-name filters and a
    de-duplicated list of sidecar filters drawn from the two values of the
    'Istio Sidecar' category, isFiltered accepts the service exactly when it
    passes each category: some filter of the category matches (OR), every
    category with a filter is passed (AND), a category without filters does
    not constrain. A name filter matches by containment, a sidecar filter by
    its exact value. *)
Theorem isFiltered_passes service servicenameFilters istioFilters :
  NoDup istioFilters →
  (∀ f, f ∈ istioFilters → f ∈ istioFilterValues) →
  isFiltered service servicenameFilters istioFilters = true ↔
  passes service servicenameFilters istioFilters.
Proof.
  intros Hnodup Hvalues. unfold isFiltered, passes.
  rewrite andb_true_iff. f_equiv.
  - destruct servicenameFilters as [|f fs]; [by intuition|].
    rewrite bool_decide_true by (simpl; lia). rewrite someIncluded_spec.
    split; [by right|]. by intros [|].
  - unfold sidecarValue, istioFilterValues in *.
    destruct istioFilters as [|f [|g rest]]; simpl.
    + by intuition.
    + assert (f = "Present" ∨ f = "Not Present") as [-> | ->]
        by (specialize (Hvalues f); set_solver).
      * simpl. destruct (ServiceOverview.istioSidecar service); split;
          try done; try (intros _; right; eexists; split; [left|done]).
        intros [|(f & ->%list_elem_of_singleton & ?)]; done.
      * simpl. destruct (ServiceOverview.istioSidecar service); split;
          try done; try (intros _; right; eexists; split; [left|done]).
        intros [|(f & ->%list_elem_of_singleton & ?)]; done.
    + split; [|done]. intros _. right.
      assert (f ≠ g) by (apply NoDup_cons in Hnodup; set_solver).
      assert (f = "Present" ∨ f = "Not Present")
        by (specialize (Hvalues f); set_solver).
      assert (g = "Present" ∨ g = "Not Present")
        by (specialize (Hvalues g); set_solver).
      destruct (ServiceOverview.istioSidecar service); eexists;
        (split; [|done]); set_solver.
Qed.

(** An unrecognised sidecar value, or three values, constrain nothing. *)
Example isFiltered_unrecognised :
  isFiltered {| ServiceOverview.name := "reviews";
                ServiceOverview.istioSidecar := false |} [] ["Deployed"]
    = true ∧
  isFiltered {| ServiceOverview.name := "reviews";
                ServiceOverview.istioSidecar := false |} []
             ["Present"; "Deployed"; "Undeployed"]
    = true.
Proof. split; reflexivity. Qed.

Lemma isFiltered_passes_witness :
  isFiltered {| ServiceOverview.name := "reviews-v2";
                ServiceOverview.istioSidecar := true |}
             ["details"; "view"] ["Present"] = true ↔
  passes {| ServiceOverview.name := "reviews-v2";
            ServiceOverview.istioSidecar := true |}
         ["details"; "view"] ["Present"].
Proof.
  apply isFiltered_passes.
  - repeat constructor; set_solver.
  - intros f Hf. unfold istioFilterValues. set_solver.
Defined.

(** De-duplication keeps the elements and leaves no duplicate. *)
Lemma removeDuplicatesArray_elem_of a x :
  x ∈ removeDuplicatesArray a ↔ x ∈ a.
Proof.
  induction a as [|y a IH]; simpl; [done|].
  rewrite !elem_of_cons, list_elem_of_filter, IH.
  destruct (decide (x = y)); naive_solver.
Qed.

Lemma removeDuplicatesArray_NoDup a : NoDup (removeDuplicatesArray a).
Proof.
  induction a as [|y a IH]; simpl; [constructor|].
  apply NoDup_cons. split.
  - rewrite list_elem_of_filter. naive_solver.
  - by apply NoDup_filter.
Qed.

Lemma filter_all {A} (P : A → Prop) `{∀ x, Decision (P x)} (l : list A) :
  Forall P l → filter P l = l.
Proof.
  induction 1 as [|x l Hx Hl IH]; [done|].
  by rewrite filter_cons_True, IH.
Qed.

Lemma filter_none {A} (P : A → Prop) `{∀ x, Decision (P x)} (l : list A) :
  Forall (λ x, ¬ P x) l → filter P l = [].
Proof.
  induction 1 as [|x l Hx Hl IH]; [done|].
  by rewrite filter_cons_False, IH.
Qed.

Lemma removeDuplicatesArray_NoDup_id a :
  NoDup a → removeDuplicatesArray a = a.
Proof.
  induction 1 as [|x a Hx Ha IH]; simpl; [done|].
  rewrite IH. f_equal. apply filter_all, Forall_forall. set_solver.
Qed.

(** [indexOf] finds the first occurrence. *)
Lemma indexOfFrom_not_elem_of i pre suf x :
  x ∉ pre →
  indexOfFrom i (pre ++ suf) x
  = indexOfFrom (i + Z.of_nat (length pre)) suf x.
Proof.
  revert i. induction pre as [|y pre IH]; intros i Hx; simpl.
  - f_equal. lia.
  - rewrite bool_decide_false by set_solver. rewrite IH by set_solver.
    f_equal. lia.
Qed.

Lemma indexOfFrom_elem_of i pre suf x :
  x ∈ pre →
  (i ≤ indexOfFrom i (pre ++ suf) x < i + Z.of_nat (length pre))%Z.
Proof.
  revert i. induction pre as [|y pre IH]; intros i Hx; simpl.
  - by apply elem_of_nil in Hx.
  - case_bool_decide as Hy; [lia|].
    apply elem_of_cons in Hx as [->|Hx]; [done|].
    specialize (IH (i + 1)%Z Hx). lia.
Qed.

(** The filter of lines 340-342 keeps the first occurrence of each value. *)
Lemma cleanArray_from pre suf :
  filterFrom (Z.of_nat (length pre))
    (λ iFilter i, bool_decide (indexOf (pre ++ suf) iFilter = i)) suf
  = filter (λ x, x ∉ pre) (removeDuplicatesArray suf).
Proof.
  revert pre. induction suf as [|x suf IH]; intros pre; [done|].
  simpl. specialize (IH (pre ++ [x])).
  rewrite <-app_assoc, length_app in IH. simpl in IH.
  replace (Z.of_nat (length pre + 1)) with (Z.of_nat (length pre) + 1)%Z
    in IH by lia.
  rewrite IH, filter_cons, list_filter_filter.
  assert (filter (λ y, y ∉ (pre ++ [x])) (removeDuplicatesArray suf)
          = filter (λ y, (y ∉ pre) ∧ y ≠ x) (removeDuplicatesArray suf)) as ->.
  { apply list_filter_iff. intros y. set_solver. }
  unfold indexOf. destruct (decide (x ∉ pre)) as [Hx|Hx].
  - rewrite indexOfFrom_not_elem_of by done. simpl.
    rewrite (bool_decide_true (x = x)) by done.
    by rewrite bool_decide_true by lia.
  - apply dec_stable in Hx.
    pose proof (indexOfFrom_elem_of 0 pre (x :: suf) x Hx).
    by rewrite bool_decide_false by lia.
Qed.

Lemma cleanIstioFilters_eq istioFilters :
  cleanIstioFilters istioFilters
  = if bool_decide (length (removeDuplicatesArray istioFilters) = 2) then []
    else removeDuplicatesArray istioFilters.
Proof.
  unfold cleanIstioFilters. cbv zeta.
  pose proof (cleanArray_from [] istioFilters) as Hclean.
  change (Z.of_nat (length [])) with 0%Z in Hclean.
  change ([] ++ istioFilters) with istioFilters in Hclean.
  rewrite Hclean.
  rewrite (filter_all (λ x, x ∉ [])) by (apply Forall_forall; set_solver).
  case_bool_decide as Hlen; [|done].
  by destruct istioFilters.
Qed.

(** cleanIstioFilters removes the duplicates by itself (lines 340-342): the
    de-duplication of line 278 before it changes nothing of its result. *)
Lemma cleanIstioFilters_removeDuplicatesArray istioFilters :
  cleanIstioFilters (removeDuplicatesArray istioFilters)
  = cleanIstioFilters istioFilters.
Proof.
  rewrite !cleanIstioFilters_eq.
  by rewrite (removeDuplicatesArray_NoDup_id
                (removeDuplicatesArray istioFilters))
    by apply removeDuplicatesArray_NoDup.
Qed.

(** C6. For a list of values of the 'Istio Sidecar' category: when both
    'Present' and 'Not Present' are selected, cleanIstioFilters returns the
    empty list, by itself and after the de-duplication of line 278, and
    isFiltered then treats a service as it does without sidecar filter;
    when one value is selected, any number of times, cleanIstioFilters
    returns the list of that single value, by itself and after the
    de-duplication of line 278. *)
Theorem cleanIstioFilters_presence (istioFilters : list string) :
  (∀ f, f ∈ istioFilters → f ∈ istioFilterValues) →
  ("Present" ∈ istioFilters → "Not Present" ∈ istioFilters →
     cleanIstioFilters istioFilters = [] ∧
     cleanIstioFilters (removeDuplicatesArray istioFilters) = [] ∧
     ∀ service servicenameFilters,
       isFiltered service servicenameFilters
         (cleanIstioFilters (removeDuplicatesArray istioFilters))
       = isFiltered service servicenameFilters []) ∧
  (∀ v, istioFilters ≠ [] → (∀ f, f ∈ istioFilters → f = v) →
     cleanIstioFilters istioFilters = [v] ∧
     cleanIstioFilters (removeDuplicatesArray istioFilters) = [v]).
Proof.
  intros Hvalues. rewrite cleanIstioFilters_removeDuplicatesArray.
  rewrite cleanIstioFilters_eq. split.
  - intros Hp Hnp.
    assert (removeDuplicatesArray istioFilters ≡ₚ istioFilterValues) as Hperm.
    { apply NoDup_Permutation.
      - apply removeDuplicatesArray_NoDup.
      - unfold istioFilterValues. repeat constructor; set_solver.
      - intros x. rewrite removeDuplicatesArray_elem_of.
        unfold istioFilterValues in *. set_solver. }
    apply Permutation_length in Hperm. simpl in Hperm.
    by rewrite bool_decide_true by done.
  - intros v Hne Hall.
    destruct istioFilters as [|x rest]; [done|]. simpl.
    assert (x = v) as -> by (apply Hall; left).
    rewrite filter_none; [by rewrite bool_decide_false by (simpl; lia)|].
    apply Forall_forall. intros y Hy Hyv.
    rewrite removeDuplicatesArray_elem_of in Hy. apply Hyv, Hall. by right.
Qed.

Lemma cleanIstioFilters_presence_witness :
  (cleanIstioFilters ["Not Present"; "Present"; "Present"; "Not Present"] = [] ∧
   cleanIstioFilters (removeDuplicatesArray
     ["Not Present"; "Present"; "Present"; "Not Present"]) = [] ∧
   ∀ service servicenameFilters,
     isFiltered service servicenameFilters
       (cleanIstioFilters (removeDuplicatesArray
          ["Not Present"; "Present"; "Present"; "Not Present"]))
     = isFiltered service servicenameFilters []) ∧
  (cleanIstioFilters ["Present"; "Present"] = ["Present"] ∧
   cleanIstioFilters (removeDuplicatesArray ["Present"; "Present"])
   = ["Present"]).
Proof.
  split.
  - apply (cleanIstioFilters_presence
             ["Not Present"; "Present"; "Present"; "Not Present"]).
    + intros f Hf. unfold istioFilterValues. set_solver.
    + set_solver.
    + set_solver.
  - apply (cleanIstioFilters_presence ["Present"; "Present"]).
    + intros f Hf. unfold istioFilterValues. set_solver.
    + done.
    + intros f Hf. set_solver.
Defined.

(** The two cases, computed, with and without the de-duplication of line
    278: cleanIstioFilters removes duplicates by itself. *)
Example cleanIstioFilters_runs :
  cleanIstioFilters (removeDuplicatesArray ["Present"; "Not Present"; "Present"])
    = [] ∧
  cleanIstioFilters ["Present"; "Not Present"; "Present"] = [] ∧
  cleanIstioFilters (removeDuplicatesArray ["Present"; "Present"])
    = ["Present"] ∧
  cleanIstioFilters ["Present"; "Present"] = ["Present"].
Proof. repeat split; reflexivity. Qed.

(** C7. Filtering a list of services that has been filtered already, with
    the same filters, returns it as it is. The filtered list is the input
    with some elements left out, the others in their order, and holds the
    services of the input that isFiltered accepts. *)
Theorem filterServices_idempotent
    (X : list ServiceOverview.t) (servicenameFilters istioFilters : list string) :
  filterServices (filterServices X servicenameFilters istioFilters)
      servicenameFilters istioFilters
    = filterServices X servicenameFilters istioFilters ∧
  filterServices X servicenameFilters istioFilters `sublist_of` X ∧
  ∀ service,
    service ∈ filterServices X servicenameFilters istioFilters ↔
    service ∈ X ∧ isFiltered service servicenameFilters istioFilters = true.
Proof.
  unfold filterServices.
  destruct (bool_decide (0 < length servicenameFilters)
            || bool_decide (0 < length istioFilters)) eqn:Hany.
  - split_and!.
    + rewrite list_filter_filter. apply list_filter_iff. naive_solver.
    + apply sublist_filter.
    + intros service. rewrite list_elem_of_filter, Is_true_true. naive_solver.
  - apply orb_false_iff in Hany as [Hs Hi].
    apply bool_decide_eq_false in Hs, Hi.
    destruct servicenameFilters; [|simpl in Hs; lia].
    destruct istioFilters; [|simpl in Hi; lia].
    split_and!; [done..|]. intros service. naive_solver.
Qed.

(** ** Pagination *)
Section Pagination.
Context {A : Type}.
Implicit Types (services serviceList : list A).

Lemma at_index_lookup services i :
  (0 ≤ i)%Z → at_index services i = services !! Z.to_nat i.
Proof. intros Hi. unfold at_index. by rewrite bool_decide_true. Qed.

Lemma slice_empty services i pageEnd :
  (pageEnd ≤ i)%Z → slice services i pageEnd = [].
Proof.
  intros Hle. unfold slice.
  replace (Z.to_nat pageEnd - Z.to_nat i) with 0 by lia. apply take_0.
Qed.

Lemma slice_step services i pageEnd x :
  (0 ≤ i < pageEnd)%Z → services !! Z.to_nat i = Some x →
  slice services i pageEnd = x :: slice services (i + 1) pageEnd.
Proof.
  intros Hi Hx. unfold slice.
  rewrite (drop_S services x (Z.to_nat i)) by done.
  replace (Z.to_nat pageEnd - Z.to_nat i)
    with (S (Z.to_nat pageEnd - Z.to_nat (i + 1))) by lia.
  simpl. do 2 f_equal. f_equal. lia.
Qed.

(** With fuel for the turns that remain, the loop appends the slice from
    [i] to [pageEnd]; it reads no element outside the array. *)
Lemma renderLoop_slice fuel services i pageEnd serviceList :
  ((i < pageEnd)%Z → (0 ≤ i)%Z) →
  (pageEnd ≤ Z.of_nat (length services))%Z →
  Z.to_nat (pageEnd - i) ≤ fuel →
  renderLoop fuel services i pageEnd serviceList
  = Some (Return (serviceList ++ slice services i pageEnd)).
Proof.
  revert i serviceList.
  induction fuel as [|fuel IH]; intros i serviceList Hi Hend Hfuel; simpl.
  - rewrite bool_decide_false by lia.
    by rewrite slice_empty, app_nil_r by lia.
  - case_bool_decide as Hlt.
    + rewrite at_index_lookup by auto.
      destruct (lookup_lt_is_Some_2 services (Z.to_nat i)) as [x Hx]; [lia|].
      rewrite Hx, IH by lia.
      rewrite (slice_step services i pageEnd x) by auto with lia.
      by rewrite <-app_assoc.
    + by rewrite slice_empty, app_nil_r by lia.
Qed.
End Pagination.

(** C8. For a page index of at least 1, any page size and any list of
    services, the loop of render ends without an error and produces
    exactly [items[start:end]], where start = (page-1)*perPage and
    end = min(start+perPage, totalCount); the slice is empty when start is
    not below totalCount. The fuel that suffices is the number of turns,
    end - start. *)
Theorem renderList_slice {A} (services : list A) (p : Pagination) fuel :
  (1 ≤ page p)%Z →
  Z.to_nat (pageEndOf services p - pageStartOf p) ≤ fuel →
  pageStartOf p = ((page p - 1) * perPage p)%Z ∧
  pageEndOf services p
    = Z.min (pageStartOf p + perPage p) (Z.of_nat (length services)) ∧
  renderList fuel services p
    = Some (Return (slice services (pageStartOf p) (pageEndOf services p))) ∧
  ((Z.of_nat (length services) ≤ pageStartOf p)%Z →
   renderList fuel services p = Some (Return [])).
Proof.
  intros Hpage Hfuel.
  assert (pageEndOf services p
          = Z.min (pageStartOf p + perPage p) (Z.of_nat (length services)))
    as Hend.
  { unfold pageEndOf. cbv zeta. case_bool_decide; lia. }
  assert (renderList fuel services p
          = Some (Return (slice services (pageStartOf p)
                            (pageEndOf services p)))) as Hrun.
  { unfold renderList. rewrite renderLoop_slice; [done| |lia|done].
    unfold pageStartOf in *. nia. }
  split_and!; [done..|].
  intros Hout. rewrite Hrun, slice_empty; [done|lia].
Qed.

Lemma renderList_slice_witness :
  pageStartOf {| page := 2; perPage := 2; perPageOptions := [] |}
    = ((2 - 1) * 2)%Z ∧
  pageEndOf ["a"; "b"; "c"] {| page := 2; perPage := 2; perPageOptions := [] |}
    = Z.min (2 + 2) 3 ∧
  renderList 1 ["a"; "b"; "c"]
      {| page := 2; perPage := 2; perPageOptions := [] |}
    = Some (Return ["c"]) ∧
  ((3 ≤ 2)%Z →
   renderList 1 ["a"; "b"; "c"]
      {| page := 2; perPage := 2; perPageOptions := [] |}
    = Some (Return [])).
Proof.
  apply (renderList_slice ["a"; "b"; "c"]
           {| page := 2; perPage := 2; perPageOptions := [] |} 1).
  - simpl. lia.
  - vm_compute. lia.
Defined.

(** Past the last page the loop does not run; a page index of 0, which is
    not an index of a page, makes it read before the array. *)
Example renderList_out_of_range :
  renderList 0 ["a"; "b"; "c"]
      {| page := 3; perPage := 2; perPageOptions := [] |}
    = Some (Return []) ∧
  renderList 2 ["a"; "b"; "c"]
      {| page := 0; perPage := 2; perPageOptions := [] |}
    = Some (Throw TypeError).
Proof. split; reflexivity. Qed.

(** ** The persisted store *)

Section ConfigStoreProperties.
Context {Slice : Type}.
Context (INITIAL_GLOBAL_STATE INITIAL_STATUS_STATE INITIAL_NAMESPACE_STATE
         INITIAL_LOGIN_STATE INITIAL_MESSAGE_CENTER_STATE INITIAL_GRAPH_STATE
         INITIAL_USER_SETTINGS_STATE : Slice).

Local Abbreviation initial :=
  (initialStore INITIAL_GLOBAL_STATE INITIAL_STATUS_STATE
     INITIAL_NAMESPACE_STATE INITIAL_LOGIN_STATE INITIAL_MESSAGE_CENTER_STATE
     INITIAL_GRAPH_STATE INITIAL_USER_SETTINGS_STATE).
Local Abbreviation started :=
  (startStore INITIAL_GLOBAL_STATE INITIAL_STATUS_STATE
     INITIAL_NAMESPACE_STATE INITIAL_LOGIN_STATE INITIAL_MESSAGE_CENTER_STATE
     INITIAL_GRAPH_STATE INITIAL_USER_SETTINGS_STATE).

Lemma persist_lookup config (state : gmap string Slice) slice :
  persist config state !! slice
  = if decide (slice ∈ whitelist config) then state !! slice else None.
Proof.
  unfold persist. apply option_eq. intros v.
  rewrite map_lookup_filter_Some. simpl. case_decide; naive_solver.
Qed.

Lemma initialStore_slices slice :
  is_Some (initial !! slice) ↔
  slice ∈ whitelist persistConfig ∨ slice ∈ transientSlices.
Proof.
  unfold initialStore, transientSlices. simpl.
  rewrite !lookup_insert_is_Some, lookup_empty, is_Some_alt.
  rewrite !elem_of_cons, !elem_of_nil. naive_solver.
Qed.

Lemma rehydrate_lookup config storage (defaults : gmap string Slice) slice :
  rehydrate config storage defaults !! slice
  = match defaults !! slice, storage with
    | Some d, Some stored =>
        Some (if bool_decide (slice ∈ whitelist config)
              then from_option id d (stored !! slice) else d)
    | Some d, None => Some d
    | None, _ => None
    end.
Proof.
  unfold rehydrate. rewrite map_lookup_imap.
  by destruct (defaults !! slice), storage.
Qed.

(** C9. The whitelist of persistConfig is 'authentication', 'statusState'
    and 'userSettings'; what is persisted of a state is its value on these
    slices and nothing else. The slices of the store are these three and
    'globalState', 'namespaces', 'messageCenter' and 'graph'; none of the
    latter is ever in storage, and after a process start each of them has
    its initial value, whatever the storage holds. A whitelisted slice
    found in storage has the stored value; without storage the store is the
    initial one. *)
Theorem persistConfig_whitelist
    (state : gmap string Slice) (storage : option (gmap string Slice)) :
  whitelist persistConfig = ["authentication"; "statusState"; "userSettings"] ∧
  (∀ slice,
     persist persistConfig state !! slice
     = if decide (slice ∈ whitelist persistConfig) then state !! slice
       else None) ∧
  (∀ slice,
     is_Some (initial !! slice) ↔
     slice ∈ whitelist persistConfig ∨ slice ∈ transientSlices) ∧
  (∀ slice,
     slice ∈ transientSlices →
     persist persistConfig state !! slice = None ∧
     started storage !! slice = initial !! slice) ∧
  (∀ slice stored v,
     slice ∈ whitelist persistConfig →
     storage = Some stored → stored !! slice = Some v →
     started storage !! slice = Some v) ∧
  started None = initial.
Proof.
  split_and!.
  - done.
  - intros slice. apply persist_lookup.
  - apply initialStore_slices.
  - intros slice Hslice.
    assert (slice ∉ whitelist persistConfig) as Hnot.
    { unfold transientSlices in Hslice. simpl. set_solver. }
    split.
    + by rewrite persist_lookup, decide_False.
    + unfold startStore. rewrite rehydrate_lookup.
      destruct (initial !! slice), storage; try done.
      by rewrite bool_decide_false.
  - intros slice stored v Hslice -> Hv.
    unfold startStore. rewrite rehydrate_lookup.
    destruct (proj2 (initialStore_slices slice)) as [d ->]; [by left|].
    by rewrite bool_decide_true, Hv.
  - apply map_eq. intros slice. unfold startStore.
    rewrite rehydrate_lookup. by destruct (initial !! slice).
Qed.
End ConfigStoreProperties.

(** A state of text values: the token changes, the storage keeps it and
    the two other whitelisted slices, and the next start finds the token
    again and the graph at its initial value. *)
Example startStore_run :
  let state : gmap string string :=
    <["authentication" := "token"]>
      (<["graph" := "loaded"]>
         (initialStore "g" "s" "n" "a" "m" "gr" "u")) in
  persist persistConfig state
    = {[ "authentication" := "token"; "statusState" := "s";
         "userSettings" := "u" ]} ∧
  startStore "g" "s" "n" "a" "m" "gr" "u"
      (Some (persist persistConfig state))
    = <["authentication" := "token"]>
        (initialStore "g" "s" "n" "a" "m" "gr" "u").
Proof. split; vm_compute; reflexivity. Qed.

(** * Further properties of the service list *)

(** ** The selected filters and the loops of fetchServices *)

Lemma bool_eq_iff (b1 b2 : bool) : (b1 = true ↔ b2 = true) → b1 = b2.
Proof. destruct b1, b2; naive_solver. Qed.

(** X1. What cleanIstioFilters returns has no value twice, never has exactly
    two values, and holds values of its argument only. *)
Theorem cleanIstioFilters_invariants (istioFilters : list string) :
  NoDup (cleanIstioFilters istioFilters) ∧
  length (cleanIstioFilters istioFilters) ≠ 2 ∧
  ∀ f, f ∈ cleanIstioFilters istioFilters → f ∈ istioFilters.
Proof.
  rewrite cleanIstioFilters_eq. case_bool_decide as Hlen.
  - split_and!; [apply NoDup_nil_2|simpl; lia|set_solver].
  - split_and!; [apply removeDuplicatesArray_NoDup|done|].
    intros f. by rewrite removeDuplicatesArray_elem_of.
Qed.

(** X2. Cleaning a cleaned list changes nothing. *)
Theorem cleanIstioFilters_idempotent (istioFilters : list string) :
  cleanIstioFilters (cleanIstioFilters istioFilters)
  = cleanIstioFilters istioFilters.
Proof.
  rewrite (cleanIstioFilters_eq (cleanIstioFilters istioFilters)).
  rewrite cleanIstioFilters_eq.
  destruct (bool_decide (length (removeDuplicatesArray istioFilters) = 2))
    eqn:Hlen.
  - by rewrite bool_decide_false by (simpl; lia).
  - rewrite removeDuplicatesArray_NoDup_id
      by apply removeDuplicatesArray_NoDup.
    by rewrite Hlen.
Qed.

Lemma includes_empty s : includes s "" = true.
Proof. by destruct s. Qed.

(** X3. A name filter that is the empty string occurs in every name: a list
    of name filters that holds it constrains no more than the empty list. *)
Theorem isFiltered_empty_name_filter service servicenameFilters istioFilters :
  "" ∈ servicenameFilters →
  isFiltered service servicenameFilters istioFilters
  = isFiltered service [] istioFilters.
Proof.
  intros Hin. unfold isFiltered. f_equal.
  rewrite bool_decide_true by (destruct servicenameFilters; [set_solver|simpl; lia]).
  rewrite bool_decide_false by (simpl; lia).
  apply someIncluded_spec. exists "". split; [done|].
  apply includes_spec, includes_empty.
Qed.

Lemma isFiltered_empty_name_filter_witness :
  isFiltered {| ServiceOverview.name := "reviews";
                ServiceOverview.istioSidecar := false |}
             ["details"; ""] ["Present"]
  = isFiltered {| ServiceOverview.name := "reviews";
                  ServiceOverview.istioSidecar := false |} [] ["Present"].
Proof.
  apply (isFiltered_empty_name_filter
           {| ServiceOverview.name := "reviews";
              ServiceOverview.istioSidecar := false |}
           ["details"; ""] ["Present"]).
  set_solver.
Defined.

Lemma isFiltered_names_equiv service snf1 snf2 istioFilters :
  (∀ f, f ∈ snf1 ↔ f ∈ snf2) →
  isFiltered service snf1 istioFilters = isFiltered service snf2 istioFilters.
Proof.
  intros Heq. unfold isFiltered. f_equal.
  destruct snf1 as [|f1 snf1], snf2 as [|f2 snf2]; [done|set_solver..|].
  rewrite !bool_decide_true by (simpl; lia).
  apply bool_eq_iff. rewrite !someIncluded_spec. naive_solver.
Qed.

Lemma isFiltered_sidecars_perm service servicenameFilters if1 if2 :
  if1 ≡ₚ if2 →
  isFiltered service servicenameFilters if1
  = isFiltered service servicenameFilters if2.
Proof.
  intros Hperm. destruct if1 as [|a [|b if1]].
  - by apply Permutation_nil_l in Hperm as ->.
  - by apply Permutation_singleton_l in Hperm as ->.
  - pose proof (Permutation_length Hperm) as Hlen. simpl in Hlen.
    unfold isFiltered. f_equal.
    rewrite !bool_decide_false; [done|lia|simpl; lia].
Qed.

Lemma filterServices_equiv X snf1 snf2 if1 if2 :
  (∀ f, f ∈ snf1 ↔ f ∈ snf2) → if1 ≡ₚ if2 →
  filterServices X snf1 if1 = filterServices X snf2 if2.
Proof.
  intros Hnames Hperm. unfold filterServices.
  assert (bool_decide (0 < length snf1) = bool_decide (0 < length snf2)) as ->.
  { destruct snf1, snf2; [done|set_solver..|].
    by rewrite !bool_decide_true by (simpl; lia). }
  rewrite (Permutation_length Hperm).
  destruct (_ || _); [|done].
  apply list_filter_iff. intros service.
  by rewrite (isFiltered_names_equiv _ snf1 snf2),
             (isFiltered_sidecars_perm _ _ if1 if2).
Qed.

Lemma filter_fmap {A B} (f : A → B) (P : B → Prop) `{∀ y, Decision (P y)}
    (l : list A) :
  filter P (f <$> l) = f <$> filter (λ x, P (f x)) l.
Proof.
  induction l as [|x l IH]; [done|]. rewrite fmap_cons, !filter_cons, IH.
  by destruct (decide (P (f x))).
Qed.

Lemma filterServices_filter X servicenameFilters istioFilters :
  filterServices X servicenameFilters istioFilters
  = filter (λ service, isFiltered service servicenameFilters istioFilters) X.
Proof.
  unfold filterServices.
  destruct servicenameFilters as [|f snf], istioFilters as [|g ifs];
    simpl; try done.
  symmetry. apply filter_all, Forall_forall. by intros service _.
Qed.

Lemma push_each {A B} (f : A → B) (updated : list B) (l : list A) :
  foldl (λ updated x, updated ++ [f x]) updated l = updated ++ (f <$> l).
Proof.
  revert updated. induction l as [|x l IH]; intros updated; simpl.
  - by rewrite app_nil_r.
  - by rewrite IH, <-app_assoc.
Qed.

Lemma updatedServices_bind servicesResponse servicenameFilters istioFilters :
  updatedServices servicesResponse servicenameFilters istioFilters
  = servicesResponse ≫= λ serviceResponse,
      pair (ServiceListResponse.namespace serviceResponse)
        <$> filterServices (ServiceListResponse.services serviceResponse)
              servicenameFilters istioFilters.
Proof.
  unfold updatedServices.
  rewrite <-(app_nil_l (servicesResponse ≫= _)).
  generalize (@nil (string * ServiceOverview.t)) at 2 3.
  induction servicesResponse as [|r rs IH]; intros updated.
  - simpl. by rewrite app_nil_r.
  - cbn [foldl]. rewrite IH, bind_cons. cbv zeta.
    rewrite (push_each (pair (ServiceListResponse.namespace r))).
    by rewrite <-app_assoc.
Qed.

(** X4. The loops of fetchServices filter response by response; what they
    list is the listing without filters, in the same order, with the
    overviews that isFiltered rejects left out. *)
Theorem updatedServices_filters_listing
    servicesResponse servicenameFilters istioFilters :
  updatedServices servicesResponse servicenameFilters istioFilters
  = filter (λ item, isFiltered item.2 servicenameFilters istioFilters)
      (updatedServices servicesResponse [] []).
Proof.
  rewrite !updatedServices_bind.
  induction servicesResponse as [|r rs IH]; [done|].
  rewrite !bind_cons, filter_app, <-IH. f_equal.
  rewrite filter_fmap. simpl. by rewrite filterServices_filter.
Qed.

Lemma categoryValues_elem_of category activeFilters v :
  v ∈ categoryValues category activeFilters ↔
  {| ActiveFilter.category := category; ActiveFilter.value := v |}
    ∈ activeFilters.
Proof.
  unfold categoryValues. rewrite list_elem_of_fmap. split.
  - intros ([c w] & -> & Hin). apply list_elem_of_filter in Hin as [Hc Hin].
    simpl in *. by subst.
  - intros Hin. eexists. split; [|apply list_elem_of_filter; split; [|done]];
      done.
Qed.

Lemma cleanIstioFilters_Permutation l1 l2 :
  (∀ f, f ∈ l1 ↔ f ∈ l2) →
  cleanIstioFilters (removeDuplicatesArray l1)
  ≡ₚ cleanIstioFilters (removeDuplicatesArray l2).
Proof.
  intros Heq.
  assert (removeDuplicatesArray l1 ≡ₚ removeDuplicatesArray l2) as Hperm.
  { apply NoDup_Permutation; [apply removeDuplicatesArray_NoDup..|].
    intros f. by rewrite !removeDuplicatesArray_elem_of. }
  rewrite !cleanIstioFilters_eq.
  rewrite (removeDuplicatesArray_NoDup_id (removeDuplicatesArray l1)),
          (removeDuplicatesArray_NoDup_id (removeDuplicatesArray l2))
    by apply removeDuplicatesArray_NoDup.
  rewrite (Permutation_length Hperm). by case_bool_decide.
Qed.

(** X5. The services listed depend on which filters are selected, not on the
    order in which they were selected nor on how often one is: two
    selections with the same filters give the same namespaces, up to order,
    and the same listing of every response. *)
Theorem updatedServices_selection activeFilters1 activeFilters2 servicesResponse :
  (∀ f, f ∈ activeFilters1 ↔ f ∈ activeFilters2) →
  namespacesSelected (selectFilters activeFilters1)
    ≡ₚ namespacesSelected (selectFilters activeFilters2) ∧
  updatedServices servicesResponse
      (servicenameFilters (selectFilters activeFilters1))
      (istioFilters (selectFilters activeFilters1))
  = updatedServices servicesResponse
      (servicenameFilters (selectFilters activeFilters2))
      (istioFilters (selectFilters activeFilters2)).
Proof.
  intros Heq.
  assert (∀ category v, v ∈ categoryValues category activeFilters1 ↔
                         v ∈ categoryValues category activeFilters2) as Hcat.
  { intros category v. by rewrite !categoryValues_elem_of. }
  split.
  - apply NoDup_Permutation; [apply removeDuplicatesArray_NoDup..|].
    intros v. simpl. by rewrite !removeDuplicatesArray_elem_of.
  - rewrite !updatedServices_bind.
    induction servicesResponse as [|r rs IH]; [done|].
    rewrite !bind_cons, IH. do 2 f_equal.
    apply filterServices_equiv.
    + intros v. simpl. by rewrite !removeDuplicatesArray_elem_of.
    + by apply cleanIstioFilters_Permutation.
Qed.

Lemma updatedServices_selection_witness :
  namespacesSelected (selectFilters selectedTwice)
    ≡ₚ namespacesSelected (selectFilters selectedOnce) ∧
  updatedServices bookinfoResponse
      (servicenameFilters (selectFilters selectedTwice))
      (istioFilters (selectFilters selectedTwice))
  = updatedServices bookinfoResponse
      (servicenameFilters (selectFilters selectedOnce))
      (istioFilters (selectFilters selectedOnce)).
Proof.
  apply (updatedServices_selection selectedTwice selectedOnce bookinfoResponse).
  intros f. unfold selectedTwice, selectedOnce. set_solver.
Defined.

(** ** updateParams *)

Section UpdateParams.
Implicit Types (params pre suf : list URLParameter.t) (id value : string).

(** The test of line 189. *)
Local Abbreviation isSet id :=
  (λ param : URLParameter.t,
     bool_decide (URLParameter.name param = id)
     && bool_decide (0 < String.length (URLParameter.value param))).

Lemma findIndexFrom_none {A} i (p : A → bool) (a : list A) :
  Forall (λ x, p x = false) a → findIndexFrom i p a = (-1)%Z.
Proof.
  intros Hnone. revert i.
  induction Hnone as [|x a Hx _ IH]; intros i; simpl; [done|].
  by rewrite Hx.
Qed.

Lemma findIndexFrom_first {A} i (p : A → bool) (l : list A) x l' :
  Forall (λ y, p y = false) l → p x = true →
  findIndexFrom i p (l ++ x :: l') = (i + Z.of_nat (length l))%Z.
Proof.
  intros Hpre Hx. revert i.
  induction Hpre as [|y l Hy _ IH]; intros i; simpl.
  - rewrite Hx. lia.
  - rewrite Hy, IH. lia.
Qed.

Lemma first_true {A} (p : A → bool) (a : list A) :
  Forall (λ x, p x = false) a ∨
  ∃ l x l', a = l ++ x :: l' ∧ Forall (λ y, p y = false) l ∧ p x = true.
Proof.
  induction a as [|x a [IH|(l & y & l' & -> & Hpre & Hy)]].
  - by left.
  - destruct (p x) eqn:Hx.
    + right. by exists [], x, a.
    + left. by constructor.
  - right. destruct (p x) eqn:Hx.
    + by exists [], x, (l ++ y :: l').
    + exists (x :: l), y, l'. split_and!; [done| |done]. by constructor.
Qed.

Lemma updateParams_absent params id value :
  Forall (λ param, isSet id param = false) params →
  updateParams params id value
  = params ++ [ {| URLParameter.name := id; URLParameter.value := value |} ].
Proof.
  intros Hnone. unfold updateParams, findIndex. cbv zeta.
  rewrite findIndexFrom_none by done. by rewrite bool_decide_false by lia.
Qed.

Lemma updateParams_present pre param suf id value :
  Forall (λ param, isSet id param = false) pre →
  isSet id param = true →
  updateParams (pre ++ param :: suf) id value
  = pre ++ {| URLParameter.name := id; URLParameter.value := value |} :: suf.
Proof.
  intros Hpre Hparam. unfold updateParams, findIndex. cbv zeta.
  rewrite findIndexFrom_first by done. rewrite bool_decide_true by lia.
  replace (Z.to_nat (0 + Z.of_nat (length pre))) with (length pre + 0) by lia.
  rewrite alter_app_r. simpl. do 3 f_equal.
  apply andb_true_iff in Hparam as [Hname _].
  by apply bool_decide_eq_true in Hname.
Qed.
Lemma isSet_new id value :
  value ≠ "" →
  isSet id {| URLParameter.name := id; URLParameter.value := value |} = true.
Proof.
  intros Hvalue. simpl. rewrite bool_decide_true by done.
  destruct value; [done|]. rewrite bool_decide_true; [done|simpl; lia].
Qed.

(** X6. After updateParams the array holds a parameter of name [id] and
    value [value]; the parameters of other names are as they were, in their
    order; the array has grown by one element at most. *)
Theorem updateParams_sets params id value :
  {| URLParameter.name := id; URLParameter.value := value |}
    ∈ updateParams params id value ∧
  filter (λ param, URLParameter.name param ≠ id) (updateParams params id value)
  = filter (λ param, URLParameter.name param ≠ id) params ∧
  length params ≤ length (updateParams params id value) ≤ S (length params).
Proof.
  destruct (first_true (isSet id) params)
    as [Hnone|(pre & param & suf & -> & Hpre & Hparam)].
  - rewrite updateParams_absent by done. split_and!.
    + set_solver.
    + rewrite filter_app, filter_cons_False by (simpl; naive_solver).
      by rewrite filter_nil, app_nil_r.
    + rewrite length_app. simpl. lia.
    + rewrite length_app. simpl. lia.
  - rewrite updateParams_present by done.
    apply andb_true_iff in Hparam as [Hname _].
    apply bool_decide_eq_true in Hname. split_and!.
    + set_solver.
    + rewrite !filter_app. f_equal.
      by rewrite !filter_cons_False by (simpl; naive_solver).
    + rewrite !length_app. simpl. lia.
    + rewrite !length_app. simpl. lia.
Qed.

(** X7. A parameter of name [id] whose value is the empty string does not
    count as set: when the array has no other of that name, updateParams
    leaves it and adds a second parameter of the same name at the end. *)
Theorem updateParams_beside_empty params id value :
  (∀ param, param ∈ params →
     URLParameter.name param = id → URLParameter.value param = "") →
  updateParams params id value
  = params ++ [ {| URLParameter.name := id; URLParameter.value := value |} ].
Proof.
  intros Hempty. apply updateParams_absent, Forall_forall. intros param Hin.
  destruct (decide (URLParameter.name param = id)) as [Hname|Hname].
  - rewrite (Hempty param Hin Hname). apply andb_false_iff. right.
    apply bool_decide_eq_false_2. simpl. lia.
  - apply andb_false_iff. left. by apply bool_decide_eq_false_2.
Qed.

Lemma updateParams_beside_empty_witness :
  updateParams [ {| URLParameter.name := "page"; URLParameter.value := "" |} ]
    "page" "2"
  = [ {| URLParameter.name := "page"; URLParameter.value := "" |} ]
    ++ [ {| URLParameter.name := "page"; URLParameter.value := "2" |} ].
Proof.
  apply (updateParams_beside_empty
           [ {| URLParameter.name := "page"; URLParameter.value := "" |} ]
           "page" "2").
  intros param Hin _. apply list_elem_of_singleton in Hin. by subst.
Defined.

(** X8. Setting a parameter to a value that is not empty and then to another
    leaves what setting it to the second alone does: the second call finds
    the parameter the first has written. *)
Theorem updateParams_overwrites params id value value' :
  value ≠ "" →
  updateParams (updateParams params id value) id value'
  = updateParams params id value'.
Proof.
  intros Hvalue.
  destruct (first_true (isSet id) params)
    as [Hnone|(pre & param & suf & -> & Hpre & Hparam)].
  - rewrite !(updateParams_absent params) by done.
    rewrite updateParams_present; [done..|by apply isSet_new].
  - rewrite !(updateParams_present pre param) by done.
    rewrite updateParams_present; [done..|by apply isSet_new].
Qed.

Lemma updateParams_overwrites_witness :
  updateParams
    (updateParams
       [ {| URLParameter.name := "page"; URLParameter.value := "3" |};
         {| URLParameter.name := "sort"; URLParameter.value := "ns" |} ]
       "sort" "sn")
    "sort" "er"
  = updateParams
      [ {| URLParameter.name := "page"; URLParameter.value := "3" |};
        {| URLParameter.name := "sort"; URLParameter.value := "ns" |} ]
      "sort" "er".
Proof.
  apply (updateParams_overwrites
           [ {| URLParameter.name := "page"; URLParameter.value := "3" |};
             {| URLParameter.name := "sort"; URLParameter.value := "ns" |} ]
           "sort" "sn" "er").
  done.
Defined.
End UpdateParams.

(** ** Pages *)

Section Pages.
Context {A : Type}.
Implicit Types (services : list A) (perPage : Z).

(** The page of index [i + 1] shows the [perPage] items that follow the
    first [i * perPage], or those that are left of them. *)
Lemma renderList_page services (i : nat) perPage options fuel :
  length services ≤ fuel →
  renderList fuel services
    {| page := Z.of_nat (S i); perPage := perPage; perPageOptions := options |}
  = Some (Return (take (Z.to_nat perPage)
                    (drop (i * Z.to_nat perPage) services))).
Proof.
  intros Hfuel. unfold renderList, pageEndOf, pageStartOf. simpl.
  replace ((Z.of_nat (S i) - 1) * perPage)%Z with (Z.of_nat i * perPage)%Z
    by lia.
  destruct (decide (0 ≤ perPage)%Z) as [Hpos|Hneg].
  - assert (perPage = Z.of_nat (Z.to_nat perPage)) as Hn by lia.
    set (n := Z.to_nat perPage) in *. clearbody n. subst perPage.
    rewrite <-Nat2Z.inj_mul. set (m := i * n).
    rewrite renderLoop_slice; [|lia|case_bool_decide; lia|case_bool_decide; lia].
    simpl. do 2 f_equal. unfold slice. rewrite Nat2Z.id.
    case_bool_decide as Hlt.
    + f_equal. lia.
    + rewrite Nat2Z.id, !take_ge; [done|rewrite length_drop; lia..].
  - assert (Z.of_nat i * perPage + perPage < Z.of_nat (length services))%Z
      as Hlt by nia.
    rewrite bool_decide_true by done.
    rewrite renderLoop_slice; [|lia..].
    rewrite slice_empty by lia.
    by replace (Z.to_nat perPage) with 0 by lia.
Qed.

(** X9. The pages 1 to [k] show, one after the other, the first [k * perPage]
    items: no item is shown twice and none is skipped, and all are shown
    once the pages cover the list. *)
Theorem renderList_pages services perPage options fuel (k : nat) :
  length services ≤ fuel →
  ∃ pages,
    Forall2
      (λ i rendered,
         renderList fuel services
           {| page := Z.of_nat (S i); perPage := perPage;
              perPageOptions := options |}
         = Some (Return rendered))
      (seq 0 k) pages ∧
    concat pages = take (k * Z.to_nat perPage) services ∧
    (length services ≤ k * Z.to_nat perPage → concat pages = services).
Proof.
  intros Hfuel.
  cut (∃ pages,
         Forall2
           (λ i rendered,
              renderList fuel services
                {| page := Z.of_nat (S i); perPage := perPage;
                   perPageOptions := options |}
              = Some (Return rendered))
           (seq 0 k) pages ∧
         concat pages = take (k * Z.to_nat perPage) services).
  { intros (pages & Hpages & Hconcat). exists pages. split_and!; [done..|].
    intros Hall. by rewrite Hconcat, take_ge. }
  induction k as [|k (pages & Hpages & Hconcat)].
  - exists []. split; [constructor|done].
  - exists (pages ++ [take (Z.to_nat perPage)
                        (drop (k * Z.to_nat perPage) services)]).
    rewrite seq_S. split.
    + apply Forall2_app; [done|]. constructor; [|constructor].
      by apply renderList_page.
    + rewrite concat_app, Hconcat. simpl. rewrite app_nil_r, take_take_drop.
      f_equal. lia.
Qed.
End Pages.

Lemma renderList_pages_witness :
  ∃ pages,
    Forall2
      (λ i rendered,
         renderList 3 ["a"; "b"; "c"]
           {| page := Z.of_nat (S i); perPage := 2; perPageOptions := [] |}
         = Some (Return rendered))
      (seq 0 2) pages ∧
    concat pages = take (2 * Z.to_nat 2) ["a"; "b"; "c"] ∧
    (length ["a"; "b"; "c"] ≤ 2 * Z.to_nat 2 →
     concat pages = ["a"; "b"; "c"]).
Proof.
  apply (renderList_pages ["a"; "b"; "c"] 2 [] 3 2). simpl. lia.
Defined.

Section PagingProperties.
Context `{Imports} (ListPage_perPageOptions : list Z) (String : Z → string).
Context {A : Type}.
Implicit Types (services : list A) (prevState : ServiceListComponentState).

(** X10. After perPageSelect the list shows the first [perPage] items of the
    services, whatever the page was. *)
Theorem perPageSelect_first_page prevState perPage services fuel :
  length services ≤ fuel →
  renderList fuel services
    (pagination (perPageSelect ListPage_perPageOptions String prevState perPage).1)
  = Some (Return (take (Z.to_nat perPage) services)).
Proof.
  intros Hfuel.
  exact (renderList_page services 0 perPage ListPage_perPageOptions fuel Hfuel).
Qed.

(** X11. pageSet checks no bound: after it has set a page index below 1,
    with a page size of at least 1, render reads [services[i]] at a negative
    index and throws the TypeError, whatever the services are. *)
Theorem pageSet_below_first_throws prevState page services fuel :
  (page < 1)%Z → (1 ≤ perPage (pagination prevState))%Z → 1 ≤ fuel →
  renderList fuel services
    (pagination (pageSet ListPage_perPageOptions String prevState page).1)
  = Some (Throw TypeError).
Proof.
  intros Hpage Hper Hfuel. destruct fuel as [|fuel]; [lia|].
  unfold renderList, pageEndOf, pageStartOf. simpl.
  set (n := perPage (pagination prevState)) in *.
  assert ((page - 1) * n < 0)%Z as Hstart by nia.
  rewrite bool_decide_true by (case_bool_decide; lia).
  unfold at_index. by rewrite bool_decide_false by lia.
Qed.
End PagingProperties.

Lemma perPageSelect_first_page_witness :
  renderList 3 ["a"; "b"; "c"]
    (pagination (perPageSelect [5; 10; 15]%Z (λ _, "2") bookinfoState 2).1)
  = Some (Return (take (Z.to_nat 2) ["a"; "b"; "c"])).
Proof.
  apply (perPageSelect_first_page [5; 10; 15]%Z (λ _, "2") bookinfoState 2
           ["a"; "b"; "c"] 3).
  simpl. lia.
Defined.

Lemma pageSet_below_first_throws_witness :
  renderList 1 ["a"; "b"; "c"]
    (pagination (pageSet [5; 10; 15]%Z (λ _, "0") bookinfoState 0).1)
  = Some (Throw TypeError).
Proof.
  apply (pageSet_below_first_throws [5; 10; 15]%Z (λ _, "0") bookinfoState 0
           ["a"; "b"; "c"] 1).
  - lia.
  - vm_compute. discriminate.
  - lia.
Defined.

(** ** The links of the list *)

Lemma contains_cons a s sub : contains s sub → contains (String a s) sub.
Proof.
  intros (pre & post & ->). exists (String a pre), post.
  by rewrite append_cons.
Qed.

Lemma append_separator_inj c (s1 s2 t1 t2 : string) :
  includes s1 (String c "") = false → includes s2 (String c "") = false →
  s1 +:+ String c t1 = s2 +:+ String c t2 → s1 = s2 ∧ t1 = t2.
Proof.
  intros Hs1 Hs2.
  apply not_true_iff_false in Hs1, Hs2. rewrite includes_spec in Hs1, Hs2.
  revert s2 Hs2. induction s1 as [|a s1 IH]; intros [|b s2] Hs2;
    rewrite ?append_nil_l, ?append_cons; intros Heq.
  - by simplify_eq.
  - simplify_eq. destruct Hs2. exists "", s2.
    by rewrite append_nil_l, append_cons, append_nil_l.
  - simplify_eq. destruct Hs1. exists "", s1.
    by rewrite append_nil_l, append_cons, append_nil_l.
  - simplify_eq. destruct (IH (λ Hc, Hs1 (contains_cons _ _ _ Hc))
                             s2 (λ Hc, Hs2 (contains_cons _ _ _ Hc)))
      as [-> ->]; done.
Qed.

(** X12. Two items whose namespaces hold no '/' have the same link, which is
    also the key of the element rendered, only when they have the same
    namespace and the same name. *)
Theorem linkTo_injective `{Imports} (a b : ServiceItem) :
  includes (namespace a) "/" = false →
  includes (namespace b) "/" = false →
  linkTo a = linkTo b →
  namespace a = namespace b ∧ name a = name b.
Proof.
  intros Ha Hb Heq. unfold linkTo in Heq.
  rewrite !append_cons, !append_nil_l in Heq. simplify_eq.
  match goal with Heq : _ +:+ _ = _ +:+ _ |- _ =>
    apply append_separator_inj in Heq as [Hns Hname]; [|done..]
  end.
  by simplify_eq.
Qed.

Lemma linkTo_injective_witness :
  namespace reviewsBookinfo = namespace reviewsBookinfo ∧
  name reviewsBookinfo = name reviewsBookinfo.
Proof.
  apply (linkTo_injective reviewsBookinfo reviewsBookinfo); reflexivity.
Defined.

(** A namespace with a '/' can make the links of two items coincide. *)
Example linkTo_collision :
  @linkTo ordinalImports
    {| name := "c"; namespace := "a/services/b"; istioSidecar := false;
       healthPromise := Pending; health := None |}
  = @linkTo ordinalImports
      {| name := "b/services/c"; namespace := "a"; istioSidecar := false;
         healthPromise := Pending; health := None |}.
Proof. reflexivity. Qed.

(** ** More on sortServices *)

Section Settlement.
Context `{Imports}.
Implicit Types (h : heap) (f : SortField) (l s : list loc).
Implicit Types (ps : list (loc * promise ServiceHealth)).
Implicit Types (j : joinState) (schedule : list nat).

Lemma settleOne_values ps st i :
  values (settleOne ps st i).2
  = match fulfilledAt ps i with
    | Some r => <[i := Some r]> (values st.2)
    | None => values st.2
    end.
Proof.
  unfold fulfilledAt, settleOne. by destruct (ps !! i) as [[r0 [|hl|e]]|].
Qed.

(** The value of an index stays what it was as long as its promise has not
    been fulfilled along the schedule. *)
Lemma settleAll_values_unsettled ps schedule h j k :
  k ∉ schedule ∨ fulfilledAt ps k = None →
  values (settleAll ps schedule (h, j)).2 !! k = values j !! k.
Proof.
  induction schedule as [|i schedule IH] using rev_ind; intros Hk; [done|].
  rewrite settleAll_snoc, settleOne_values.
  assert (k ∉ schedule ∨ fulfilledAt ps k = None) as Hk' by set_solver.
  destruct (fulfilledAt ps i) as [r|] eqn:Hi; [|by auto].
  rewrite list_lookup_insert_ne; [by auto|].
  intros ->. destruct Hk as [Hk|Hk]; [set_solver|congruence].
Qed.

Lemma mapM_id_None {A} (vs : list (option A)) k :
  vs !! k = Some None → mapM id vs = None.
Proof.
  intros Hk. destruct (mapM id vs) as [arr|] eqn:Hm; [|done].
  assert (is_Some (mapM id vs)) as Hs by by eexists.
  apply mapM_is_Some in Hs. rewrite Forall_lookup in Hs.
  by destruct (Hs k None Hk).
Qed.

(** Two schedules that settle the same promises, none of them rejected,
    leave the same heap and the same join. *)
Lemma settleAll_order h ps s1 s2 j :
  gathered h ps →
  (∀ i, i ∈ s1 ↔ i ∈ s2) →
  Forall (λ i, rejectedAt ps i = None) s1 →
  settleAll ps s1 (h, j) = settleAll ps s2 (h, j).
Proof.
  intros Hg Heq Hrej1.
  assert (Forall (λ i, rejectedAt ps i = None) s2) as Hrej2.
  { rewrite Forall_forall in Hrej1. apply Forall_forall. intros i Hi.
    by apply Hrej1, Heq. }
  destruct (settleAll_heap ps s1 h j Hg) as [Ha1 Hi1].
  destruct (settleAll_heap ps s2 h j Hg) as [Ha2 Hi2].
  pose proof (settleAll_rejection_None ps s1 h j Hrej1) as Hr1.
  pose proof (settleAll_rejection_None ps s2 h j Hrej2) as Hr2.
  assert (values (settleAll ps s1 (h, j)).2 = values (settleAll ps s2 (h, j)).2)
    as Hv.
  { apply list_eq. intros k.
    destruct (decide (k < length (values j))) as [Hlt|Hge].
    - destruct (decide (k ∈ s1)) as [Hin|Hout];
        [destruct (fulfilledAt ps k) as [r|] eqn:Hk|].
      + transitivity (Some (Some r)); [|symmetry];
          apply settleAll_values; auto. by apply Heq.
      + by rewrite !settleAll_values_unsettled by by right.
      + rewrite !settleAll_values_unsettled; [done|left..]; [|done].
        by rewrite <-Heq.
    - rewrite !(proj2 (lookup_ge_None _ _)); [done|..];
        rewrite settleAll_values_length; lia. }
  assert (items (settleAll ps s1 (h, j)).1 = items (settleAll ps s2 (h, j)).1)
    as Hi.
  { apply map_eq. intros r. rewrite Hi1, Hi2.
    assert (r ∈ omap (fulfilledAt ps) s1 ↔ r ∈ omap (fulfilledAt ps) s2).
    { rewrite !list_elem_of_omap. naive_solver. }
    repeat case_decide; naive_solver. }
  destruct (settleAll ps s1 (h, j)) as [[a1 i1] [v1 r1]].
  destruct (settleAll ps s2 (h, j)) as [[a2 i2] [v2 r2]].
  simpl in *. congruence.
Qed.
End Settlement.

Lemma scheduled_not_rejected `{Imports} h l ps schedule :
  gathered h ps → ps.*1 = l →
  (∀ i r it e,
     i ∈ schedule → l !! i = Some r → items h !! r = Some it →
     healthPromise it ≠ Rejected e) →
  Forall (λ i, rejectedAt ps i = None) schedule.
Proof.
  intros Hg Hfst Hno. apply Forall_forall. intros i Hi. unfold rejectedAt.
  destruct (ps !! i) as [[r p]|] eqn:Hp; [|done].
  destruct (Hg i r p Hp) as (it & Hit & <-).
  assert (l !! i = Some r) as Hl by by rewrite <-Hfst, list_lookup_fmap, Hp.
  destruct (healthPromise it) as [|hl|e] eqn:Hhp; try done.
  by destruct (Hno i r it e Hi Hl Hit).
Qed.

(** X13. As long as no promise that settles is rejected, the order in which
    the health promises settle, and how often the schedule names one,
    changes neither the heap that sortServices leaves nor the promise it
    returns. *)
Theorem sortServices_settlement_order `{Imports} h s1 s2 svc f asc :
  (∀ i, i ∈ s1 ↔ i ∈ s2) →
  (∀ i l r it e,
     i ∈ s1 → arrays h !! svc = Some l → l !! i = Some r →
     items h !! r = Some it → healthPromise it ≠ Rejected e) →
  sortServices h s1 svc f asc = sortServices h s2 svc f asc.
Proof.
  intros Heq Hno. unfold sortServices.
  destruct (arrays h !! svc) as [l|] eqn:Hsvc; [|done].
  destruct (decide (title f = "Error Rate")) as [Htitle|Htitle]; [|done].
  destruct (mapM _ l) as [ps|] eqn:Hps; [|done].
  destruct (gather_spec h l ps Hps) as [Hg Hfst].
  rewrite (settleAll_order h ps s1 s2 _ Hg Heq); [done|].
  apply (scheduled_not_rejected h l); [done..|].
  intros i r it e Hi. by apply Hno.
Qed.

Lemma sortServices_settlement_order_witness :
  sortServices bookinfoHeap [0; 1] 0 errorRateField true
  = sortServices bookinfoHeap [1; 0; 1] 0 errorRateField true.
Proof.
  apply (@sortServices_settlement_order ordinalImports bookinfoHeap
           [0; 1] [1; 0; 1] 0 errorRateField true).
  - intros i. set_solver.
  - intros i l r it e Hi [= <-] Hl Hit.
    apply elem_of_cons in Hi as [->|Hi];
      [|apply list_elem_of_singleton in Hi as ->];
      vm_compute in Hl; injection Hl as <-;
      vm_compute in Hit; injection Hit as <-; discriminate.
Defined.

(** X14. While the promise of some item has not been fulfilled, and none
    that settled was rejected, the promise of sortServices for 'Error Rate'
    is pending: updateSortField has changed neither the state nor the URL,
    no array has changed, and the items have kept their name, namespace,
    sidecar flag and health promise. *)
Theorem updateSortField_pending `{Imports} st h schedule f l :
  title f = "Error Rate" →
  arrays h !! services st = Some l →
  Forall (λ r, is_Some (items h !! r)) l →
  (∀ i r it e,
     i ∈ schedule → l !! i = Some r → items h !! r = Some it →
     healthPromise it ≠ Rejected e) →
  (∃ i r it,
     l !! i = Some r ∧ items h !! r = Some it ∧
     (i ∉ schedule ∨ healthPromise it = Pending)) →
  ∃ h',
    sortServices h schedule (services st) f (isSortAscending st)
      = (h', Return Pending) ∧
    updateSortField st h schedule f = (h', st, [], None) ∧
    arrays h' = arrays h ∧
    (∀ r0, option_Forall2 sameFields (items h !! r0) (items h' !! r0)).
Proof.
  intros Htitle Hsvc Hl Hno (i & r & it & Hi & Hit & Hwait).
  destruct (gather_defined h l Hl) as [ps Hps].
  destruct (gather_spec h l ps Hps) as [Hg Hfst].
  set (start := {| values := replicate (length l) None; rejection := None |}).
  destruct (settleAll_frame h ps schedule start Hg) as [Harrays Hitems].
  assert (rejection (settleAll ps schedule (h, start)).2 = None) as Hrej.
  { apply (settleAll_rejection_None ps schedule h start).
    by apply (scheduled_not_rejected h l). }
  assert (values (settleAll ps schedule (h, start)).2 !! i = Some None)
    as Hvalue.
  { rewrite settleAll_values_unsettled.
    - simpl. apply lookup_replicate_2. by apply lookup_lt_Some with r.
    - destruct Hwait as [Hout|Hpending]; [by left|right].
      destruct (gathered_lookup h l ps i r Hg Hfst Hi) as (it' & Hit' & Hp).
      unfold fulfilledAt. rewrite Hp. simplify_eq. by rewrite Hpending. }
  destruct (settleAll ps schedule (h, start)) as [h1 j] eqn:Hsettle.
  simpl in Harrays, Hitems, Hrej, Hvalue.
  assert (joined j = Pending) as Hjoined.
  { unfold joined. by rewrite Hrej, (mapM_id_None _ i Hvalue). }
  assert (sortServices h schedule (services st) f (isSortAscending st)
          = (h1, Return Pending)) as Hsort.
  { unfold sortServices. rewrite Hsvc, decide_True, Hps by done.
    fold start. by rewrite Hsettle, Hjoined. }
  exists h1. split_and!; [done| |done..].
  unfold updateSortField. by rewrite Hsort.
Qed.

Lemma updateSortField_pending_witness :
  ∃ h' : @heap ordinalImports,
    sortServices bookinfoHeap [0; 1] (services bookinfoState) errorRateField
        (isSortAscending bookinfoState)
      = (h', Return Pending) ∧
    updateSortField bookinfoState bookinfoHeap [0; 1] errorRateField
      = (h', bookinfoState, [], None) ∧
    arrays h' = arrays bookinfoHeap ∧
    (∀ r0 : loc, option_Forall2 (@sameFields ordinalImports)
                   (items bookinfoHeap !! r0) (items h' !! r0)).
Proof.
  apply (@updateSortField_pending ordinalImports bookinfoState bookinfoHeap
           [0; 1] errorRateField [0; 1; 2]).
  - reflexivity.
  - reflexivity.
  - repeat constructor; by eexists.
  - intros i r it e Hi Hl Hit.
    apply elem_of_cons in Hi as [->|Hi];
      [|apply list_elem_of_singleton in Hi as ->];
      vm_compute in Hl; injection Hl as <-;
      vm_compute in Hit; injection Hit as <-; discriminate.
  - exists 2, 2, detailsBookinfo. split_and!; [reflexivity..|].
    left. set_solver.
Defined.

Lemma arraySort_of_sorted {A} (comparefn : A → A → option number) (l : list A) :
  StronglySorted (before comparefn) l → arraySort comparefn l = Some l.
Proof.
  induction 1 as [|x l Hl IH Hx]; [done|]. simpl. rewrite IH. simpl.
  destruct l as [|y l']; [done|]. simpl.
  apply Forall_cons in Hx as [(c & -> & Hc) _]. simpl.
  apply Qle_bool_iff in Hc. by rewrite Hc.
Qed.

(** X15. Sorting again by the same field and in the same direction, one of
    the three fields that need no health, changes nothing: the array that
    the first call has sorted is left as it is by the second. *)
Theorem sortServices_again `{Imports} `{!CollationLaws}
    i f asc h schedule schedule' svc l :
  i < 3 → sortFields !! i = Some f →
  arrays h !! svc = Some l →
  Forall (λ r, is_Some (items h !! r)) l →
  sortServices (sortServices h schedule svc f asc).1 schedule' svc f asc
  = sortServices h schedule svc f asc.
Proof.
  intros Hi Hf Hsvc Hl.
  destruct (sortServices_sync_eq i f asc h schedule svc l)
    as (s & -> & Hperm & Hsorted); [done..|].
  unfold sortServices. simpl. rewrite lookup_insert_eq.
  rewrite decide_False by by apply title_sync with i.
  unfold sortInPlace. simpl. rewrite lookup_insert_eq. simpl.
  assert (arraySort
            (compareAt {| arrays := <[svc := s]> (arrays h); items := items h |}
               (comparator f asc)) s = Some s) as ->.
  { exact (arraySort_of_sorted _ s Hsorted). }
  simpl. by rewrite insert_insert_eq.
Qed.

Lemma sortServices_again_witness :
  sortServices (sortServices bookinfoHeap [] 0 namespaceField true).1 []
    0 namespaceField true
  = sortServices bookinfoHeap [] 0 namespaceField true.
Proof.
  apply (@sortServices_again ordinalImports ordinal_laws 0 namespaceField true
           bookinfoHeap [] [] 0 [0; 1; 2]).
  - lia.
  - reflexivity.
  - reflexivity.
  - repeat constructor; by eexists.
Defined.

Section Frame.
Context `{Imports}.
Implicit Types (h : heap) (f : SortField) (l s : list loc).

Lemma sameFields_refl (x : option ServiceItem) : option_Forall2 sameFields x x.
Proof. destruct x; by constructor. Qed.

Lemma sortInPlace_Some h a cmp h' :
  sortInPlace h a cmp = Some h' →
  ∃ l s, arrays h !! a = Some l ∧ s ≡ₚ l ∧
         h' = {| arrays := <[a := s]> (arrays h); items := items h |}.
Proof.
  unfold sortInPlace. intros Hs.
  destruct (arrays h !! a) as [l|]; [|done]. simpl in Hs.
  destruct (arraySort _ l) as [s|] eqn:Hsort; [|done]. simplify_eq/=.
  exists l, s. split_and!; [done| |done]. by eapply arraySort_Permutation.
Qed.

(** X16. Whatever the field, the direction and the schedule, and whether the
    call succeeds or not, sortServices adds no item and removes none, and
    changes no name, namespace, sidecar flag or health promise of an item;
    every array of the heap keeps its elements. Only the array passed in can
    change its order, and for 'Error Rate' not even this one. *)
Theorem sortServices_frame h schedule svc f asc :
  (∀ r, option_Forall2 sameFields
          (items h !! r)
          (items (sortServices h schedule svc f asc).1 !! r)) ∧
  (∀ a l,
     arrays h !! a = Some l →
     ∃ l', arrays (sortServices h schedule svc f asc).1 !! a = Some l' ∧
           l' ≡ₚ l ∧
           (a ≠ svc ∨ title f = "Error Rate" → l' = l)).
Proof.
  assert (∀ h', arrays h' = arrays h → ∀ a l,
            arrays h !! a = Some l →
            ∃ l', arrays h' !! a = Some l' ∧ l' ≡ₚ l ∧
                  (a ≠ svc ∨ title f = "Error Rate" → l' = l)) as Hsame.
  { intros h' Heq a l Ha. exists l. by rewrite Heq. }
  unfold sortServices.
  destruct (arrays h !! svc) as [elements|] eqn:Hsvc;
    [|split; [intros r; apply sameFields_refl|by apply Hsame]].
  destruct (decide (title f = "Error Rate")) as [Htitle|Htitle].
  - destruct (mapM _ elements) as [ps|] eqn:Hps;
      [|split; [intros r; apply sameFields_refl|by apply Hsame]].
    destruct (gather_spec h elements ps Hps) as [Hg _].
    set (start := {| values := replicate (length elements) None;
                     rejection := None |}).
    destruct (settleAll_frame h ps schedule start Hg) as [Harrays Hitems].
    destruct (settleAll ps schedule (h, start)) as [h1 j].
    simpl in Harrays, Hitems.
    destruct (joined j) as [|arr|e]; simpl;
      [by split; [|apply Hsame]| |by split; [|apply Hsame]].
    assert (∀ a l s, arrays h !! a = Some l →
              <[fresh (dom (arrays h1)) := s]> (arrays h1) !! a = Some l)
      as Hfresh.
    { intros a l s Ha. rewrite lookup_insert_ne, Harrays; [done|].
      intros <-. pose proof (is_fresh (dom (arrays h1))) as Hnew.
      apply not_elem_of_dom in Hnew. rewrite Harrays in Hnew. congruence. }
    destruct (sortInPlace _ _ _) as [h3|] eqn:Hsort; simpl.
    + apply sortInPlace_Some in Hsort as (l0 & s & _ & _ & ->). simpl.
      split; [done|]. intros a l Ha. exists l. split_and!; [|done..].
      rewrite insert_insert_eq. by apply Hfresh.
    + split; [done|]. intros a l Ha. exists l. split_and!; [|done..].
      by apply Hfresh.
  - destruct (sortInPlace _ _ _) as [h1|] eqn:Hsort; simpl;
      [|split; [intros r; apply sameFields_refl|by apply Hsame]].
    apply sortInPlace_Some in Hsort as (l0 & s & Hl0 & Hperm & ->). simpl.
    split; [intros r; apply sameFields_refl|]. intros a l Ha.
    destruct (decide (a = svc)) as [->|Hne].
    + exists s. rewrite lookup_insert_eq. simplify_eq.
      split_and!; [done..|]. by intros [?|?].
    + exists l. by rewrite lookup_insert_ne.
Qed.
End Frame.

Lemma StronglySorted_lookup {A} (R : A → A → Prop) (l : list A) i j x y :
  StronglySorted R l → i < j → l !! i = Some x → l !! j = Some y → R x y.
Proof.
  intros Hs. revert i j.
  induction Hs as [|a l Hl IH Ha]; intros [|i] [|j] Hij Hi Hj;
    simplify_eq/=; try lia.
  - by apply (Forall_lookup_1 _ _ _ _ Ha Hj).
  - apply (IH i j); [lia|done..].
Qed.

(** X17. Sorted by 'Istio Sidecar', ascending, the services with a sidecar
    come first: behind a service without one there is none with one.
    Descending, those without a sidecar come first. *)
Theorem sortServices_sidecar_first `{Imports} `{!CollationLaws}
    f asc h schedule svc l :
  sortFields !! 2 = Some f →
  arrays h !! svc = Some l →
  Forall (λ r, is_Some (items h !! r)) l →
  ∃ h' s,
    sortServices h schedule svc f asc = (h', Return (Fulfilled svc)) ∧
    arrays h' !! svc = Some s ∧
    items h' = items h ∧
    ∀ i j r1 r2 it1 it2,
      i < j → s !! i = Some r1 → s !! j = Some r2 →
      items h !! r1 = Some it1 → items h !! r2 = Some it2 →
      istioSidecar it1 = negb asc → istioSidecar it2 = negb asc.
Proof.
  intros Hf Hsvc Hl.
  destruct (sortServices_sync_eq 2 f asc h schedule svc l)
    as (s & -> & Hperm & Hsorted); [lia|done..|].
  eexists _, s. split_and!; [done|apply lookup_insert_eq|done|].
  intros i j r1 r2 it1 it2 Hij Hi Hj Hit1 Hit2 Hside.
  destruct (StronglySorted_lookup _ _ _ _ _ _ Hsorted Hij Hi Hj)
    as (c & Hc & Hle).
  unfold compareAt in Hc. rewrite Hit1, Hit2 in Hc. simpl in Hc.
  injection Hf as <-.
  destruct asc, (istioSidecar it1) eqn:H1, (istioSidecar it2) eqn:H2;
    simpl in *; rewrite ?H1, ?H2 in Hc; simpl in Hc; try done;
    by simplify_eq.
Qed.

Lemma sortServices_sidecar_first_witness :
  ∃ (h' : @heap ordinalImports) s,
    sortServices bookinfoHeap [] 0 istioSidecarField true
      = (h', Return (Fulfilled 0)) ∧
    arrays h' !! 0 = Some s ∧
    items h' = items bookinfoHeap ∧
    ∀ i j r1 r2 (it1 it2 : @ServiceItem ordinalImports),
      i < j → s !! i = Some r1 → s !! j = Some r2 →
      items bookinfoHeap !! r1 = Some it1 →
      items bookinfoHeap !! r2 = Some it2 →
      istioSidecar it1 = negb true → istioSidecar it2 = negb true.
Proof.
  apply (@sortServices_sidecar_first ordinalImports ordinal_laws
           istioSidecarField true bookinfoHeap [] 0 [0; 1; 2]).
  - reflexivity.
  - reflexivity.
  - repeat constructor; by eexists.
Defined.

(** X18. For the three fields that need no health, updateSortField always
    goes through: the state has the new field and the same array of
    services, now sorted, a permutation of its former content in the order
    of the field's comparator, reversed when the direction is descending;
    its direction, pagination and rate interval are as before, and the URL
    receives the parameter 'sort' of the field. No item changes. *)
Theorem updateSortField_sync `{Imports} `{!CollationLaws}
    i f st h schedule l :
  i < 3 → sortFields !! i = Some f →
  arrays h !! services st = Some l →
  Forall (λ r, is_Some (items h !! r)) l →
  ∃ h' s,
    updateSortField st h schedule f
    = (h',
       {| services := services st; pagination := pagination st;
          currentSortField := f; isSortAscending := isSortAscending st;
          rateInterval := rateInterval st |},
       [ {| URLParameter.name := "sort"; URLParameter.value := param f |} ],
       None) ∧
    h' = {| arrays := <[services st := s]> (arrays h); items := items h |} ∧
    s ≡ₚ l ∧
    StronglySorted (inOrder h' f (isSortAscending st)) s.
Proof.
  intros Hi Hf Hsvc Hl.
  destruct (sortServices_sync_eq i f (isSortAscending st) h schedule
              (services st) l) as (s & Hsort & Hperm & Hsorted); [done..|].
  eexists _, s. split_and!; [|done|done|].
  - unfold updateSortField. by rewrite Hsort.
  - eapply StronglySorted_impl; [|done]. intros x y Hxy.
    by apply before_inOrder in Hxy.
Qed.

Lemma updateSortField_sync_witness :
  ∃ (h' : @heap ordinalImports) s,
    updateSortField bookinfoState bookinfoHeap [] serviceNameField
    = (h',
       {| services := services bookinfoState;
          pagination := pagination bookinfoState;
          currentSortField := serviceNameField;
          isSortAscending := isSortAscending bookinfoState;
          rateInterval := rateInterval bookinfoState |},
       [ {| URLParameter.name := "sort";
            URLParameter.value := param serviceNameField |} ],
       None) ∧
    h' = {| arrays := <[services bookinfoState := s]> (arrays bookinfoHeap);
            items := items bookinfoHeap |} ∧
    s ≡ₚ [0; 1; 2] ∧
    StronglySorted
      (inOrder h' serviceNameField (isSortAscending bookinfoState)) s.
Proof.
  apply (@updateSortField_sync ordinalImports ordinal_laws 1 serviceNameField
           bookinfoState bookinfoHeap [] [0; 1; 2]).
  - lia.
  - reflexivity.
  - reflexivity.
  - repeat constructor; by eexists.
Defined.

(** The run on the same state: the array of the state is the one at
    reference 0, with details moved to the front. *)
Example updateSortField_serviceName_run :
  (updateSortField bookinfoState bookinfoHeap [] serviceNameField).1.1.1
  = {| arrays := {[ 0 := [2; 0; 1] ]}; items := items bookinfoHeap |}.
Proof. vm_compute. reflexivity. Qed.
